(** * Citation plugin: library loading, citation extraction, preview post-processing

    A shallow embedding of [src/main.ts] (class [CitationPlugin]).

    - JavaScript strings are sequences of UTF-16 code units: [list N].
    - The regular expressions of the source are kept as syntax trees and run
      by a backtracking matcher that follows the priority order of the
      ECMAScript matcher (greedy and lazy quantifiers, capture groups, the
      [g] and [m] flags).
    - [this.library] is [option Library]; [null]/[undefined] is [None].
    - The entries object of a library is the finite map of its own
      properties; a property read on it ([Get]) falls back to
      [Object.prototype], as the property access of the source does.
    - The [innerHTML] setter is followed by the DOM's own reading of the
      markup, a parameter of the post-processor.
    - The asynchronous [loadLibrary] is a transition system over the plugin
      state: one transition per synchronous block of the promise chain. *)

From Stdlib Require Import NArith List String Ascii Bool Lia.
From stdpp Require Import base option list gmap.
Import ListNotations.

Local Open Scope N_scope.
Local Open Scope nat_scope.

(** ** JavaScript strings *)

(** A JavaScript string: its UTF-16 code units. *)
Abbreviation jsstring := (list N).

(** The code units of an ASCII literal. *)
Fixpoint js (s : string) : jsstring :=
  match s with
  | EmptyString => []
  | String a s' => N_of_ascii a :: js s'
  end.

(** The code unit of an ASCII character literal. *)
Definition ch (a : ascii) : N := N_of_ascii a.

(** ECMAScript LineTerminator: LF, CR, LS (U+2028), PS (U+2029). *)
Definition isLineTerminator (c : N) : bool :=
  (c =? 10)%N || (c =? 13)%N || (c =? 8232)%N || (c =? 8233)%N.

(** ** Regular expressions *)

Module RegExp.

(** The pattern syntax used by the two literals of [main.ts]. A
    non-capturing group [(?: r )] is [r] itself; [Group i r] is the [i]-th
    capturing parenthesis. The [bool] of a quantifier is [true] for the
    greedy form ([*], [+], [?]) and [false] for the lazy one ([*?], [+?],
    [??]). *)
Inductive regex : Type :=
| Chr (c : N)
| Dot
| Class (negated : bool) (cs : list N)
| Bol
| Eol
| Cat (r1 r2 : regex)
| Star (greedy : bool) (r : regex)
| Plus (greedy : bool) (r : regex)
| Opt (greedy : bool) (r : regex)
| Group (i : nat) (r : regex).

(** Matcher state: [prev] holds the code units left of the current
    position, nearest first; [rest] those right of it; [caps] the captures
    recorded so far, latest first. *)
Record mstate : Type := MState {
  prev : list N;
  rest : list N;
  caps : list (nat * jsstring)
}.

Definition endIndex (s : mstate) : nat := length (prev s).

Definition cont : Type := mstate -> option mstate.

(** CharacterSetMatcher: consume one code unit satisfying [p]. *)
Definition eat (p : N -> bool) (s : mstate) (k : cont) : option mstate :=
  match rest s with
  | c :: cs => if p c then k (MState (c :: prev s) cs (caps s)) else None
  | [] => None
  end.

Definition inClass (cs : list N) (c : N) : bool := existsb (N.eqb c) cs.

(** Assertion [^]: start of input, or with the [m] flag just after a line
    terminator. *)
Definition atBol (multiline : bool) (s : mstate) : bool :=
  match prev s with
  | [] => true
  | c :: _ => multiline && isLineTerminator c
  end.

(** Assertion [$]: end of input, or with the [m] flag just before a line
    terminator. *)
Definition atEol (multiline : bool) (s : mstate) : bool :=
  match rest s with
  | [] => true
  | c :: _ => multiline && isLineTerminator c
  end.

(** First alternative that succeeds. *)
Definition orElse (a b : option mstate) : option mstate :=
  match a with
  | Some x => Some x
  | None => b
  end.

(** RepeatMatcher with min = 0 and max = infinity. An iteration that
    consumes nothing is rejected. [fuel] bounds the number of iterations;
    each consumes at least one code unit, so [S (length (rest s))] is never
    exhausted. *)
Fixpoint repeat (body : mstate -> cont -> option mstate) (greedy : bool)
    (k : cont) (fuel : nat) (s : mstate) : option mstate :=
  match fuel with
  | O => k s
  | S fuel' =>
      let again :=
        body s (fun s' =>
          if Nat.eqb (endIndex s') (endIndex s) then None
          else repeat body greedy k fuel' s') in
      if greedy then orElse again (k s) else orElse (k s) again
  end.

(** The code units consumed between two states of one run. *)
Definition consumed (s s' : mstate) : jsstring :=
  take (endIndex s' - endIndex s) (rest s).

(** The backtracking matcher, in continuation-passing style: [m r s k]
    tries the ways [r] can match at [s] in priority order and returns the
    first for which the continuation [k] succeeds. *)
Fixpoint m (multiline : bool) (r : regex) (s : mstate) (k : cont)
    : option mstate :=
  match r with
  | Chr c => eat (N.eqb c) s k
  | Dot => eat (fun c => negb (isLineTerminator c)) s k
  | Class negated cs => eat (fun c => xorb negated (inClass cs c)) s k
  | Bol => if atBol multiline s then k s else None
  | Eol => if atEol multiline s then k s else None
  | Cat r1 r2 => m multiline r1 s (fun s' => m multiline r2 s' k)
  | Star greedy r' =>
      repeat (m multiline r') greedy k (S (length (rest s))) s
  | Plus greedy r' =>
      m multiline r' s (fun s' =>
        repeat (m multiline r') greedy k (S (length (rest s'))) s')
  | Opt greedy r' =>
      let once :=
        m multiline r' s (fun s' =>
          if Nat.eqb (endIndex s') (endIndex s) then None else k s') in
      if greedy then orElse once (k s) else orElse (k s) once
  | Group i r' =>
      m multiline r' s (fun s' =>
        k (MState (prev s') (rest s') ((i, consumed s s') :: caps s')))
  end.

(** A match: [index], the matched substring ([match[0]]) and the captures. *)
Record MatchResult : Type := Match {
  index : nat;
  matched : jsstring;
  captures : list (nat * jsstring)
}.

(** [match[i]] for [i >= 1]; [None] is [undefined]. *)
Fixpoint capture (i : nat) (cs : list (nat * jsstring)) : option jsstring :=
  match cs with
  | [] => None
  | (j, v) :: cs' => if Nat.eqb i j then Some v else capture i cs'
  end.

(** RegExpBuiltinExec without the sticky flag: the first position at or
    after the current one where the pattern matches. *)
Fixpoint search (multiline : bool) (r : regex) (before after : list N)
    : option (MatchResult * mstate) :=
  let s := MState before after [] in
  match m multiline r s Some with
  | Some e => Some (Match (endIndex s) (consumed s e) (caps e), e)
  | None =>
      match after with
      | [] => None
      | c :: after' => search multiline r (c :: before) after'
      end
  end.

(** The iterator of [String.prototype.matchAll] for a pattern with the [g]
    flag: after each match [lastIndex] becomes the end of the match, and
    one more when the match is empty. *)
Fixpoint matchAllFrom (multiline : bool) (r : regex) (fuel : nat)
    (before after : list N) : list MatchResult :=
  match fuel with
  | O => []
  | S fuel' =>
      match search multiline r before after with
      | None => []
      | Some (res, e) =>
          res ::
          match matched res, rest e with
          | [], [] => []
          | [], c :: cs => matchAllFrom multiline r fuel' (c :: prev e) cs
          | _ :: _, _ => matchAllFrom multiline r fuel' (prev e) (rest e)
          end
      end
  end.

(** [str.matchAll(/r/g)] or [/r/gm], spread into an array. *)
Definition matchAll (multiline : bool) (r : regex) (str : jsstring)
    : list MatchResult :=
  matchAllFrom multiline r (S (length str)) [] str.

(** [str.match(/r/)] without the [g] flag: the first match or [null]. *)
Definition match_ (multiline : bool) (r : regex) (str : jsstring)
    : option MatchResult :=
  fst <$> search multiline r [] str.

End RegExp.

Import RegExp.

Infix "+++" := Cat (at level 60, right associativity).

(** [/^.*\[\[?@([^\]]+?)(?:[#^]+[^\]]+)?\]\]?.*$/gm], the pattern of
    [getCitations]. *)
Definition citationPattern : regex :=
  Bol +++ Star true Dot +++
  Chr (ch "[") +++ Opt true (Chr (ch "[")) +++ Chr (ch "@") +++
  Group 1 (Plus false (Class true [ch "]"])) +++
  Opt true (Plus true (Class false [ch "#"; ch "^"]) +++
            Plus true (Class true [ch "]"])) +++
  Chr (ch "]") +++ Opt true (Chr (ch "]")) +++
  Star true Dot +++ Eol.

(** [/^\/(@(.+))$/], the pattern [postProcessMarkdown] applies to a link's
    [pathname]. *)
Definition pathnamePattern : regex :=
  Bol +++ Chr (ch "/") +++
  Group 1 (Chr (ch "@") +++ Group 2 (Plus true Dot)) +++ Eol.

(** ** Entries and the library *)

(** A record as the worker delivers it ([EntryData]): a JavaScript object,
    here its string-valued fields by name. *)
Abbreviation EntryData := (gmap jsstring jsstring).

(** [Entry] and its two format adapters are declared in [./types]; an
    adapter object is built from one record by [new adapter(e)] and is kept
    here as the record under the adapter's name. *)
Inductive Entry : Type :=
| EntryBibLaTeXAdapter (data : EntryData)
| EntryCSLAdapter (data : EntryData).

(** [Library] is declared in [./types]; [main.ts] builds it from an object
    keyed by citekey and reads that object back as [library.entries]. The
    object is the finite map of its own properties. *)
Record Library : Type := mkLibrary {
  entries : gmap jsstring Entry
}.

(** Modelled from the spec: the getter [Library.size] is declared in
    [./types], which is not part of the sources; the spec gives it as the
    entry count of the store. *)
Definition Library_size (l : Library) : nat := size (entries l).

(** ToString of a value that is a string or [undefined] ([None]), as
    applied to a property key or to a string argument: [undefined] reads as
    the string "undefined". *)
Definition ToString (v : option jsstring) : jsstring :=
  match v with
  | Some s => s
  | None => js "undefined"
  end.

(** [Object.fromEntries]: properties are defined in iteration order, a
    later pair replacing an earlier one with the same key. *)
Definition fromEntries {V : Type} (pairs : list (jsstring * V))
    : gmap jsstring V :=
  fold_left (fun o kv => <[kv.1 := kv.2]> o) pairs ∅.

(** The names of the properties of [Object.prototype], as ECMAScript
    defines them (those of Annex B included). The object that
    [Object.fromEntries] returns has [Object.prototype] as its prototype,
    so it inherits a property under each of these names. *)
Definition ObjectPrototype_properties : list jsstring :=
  [ js "constructor";
    js "__defineGetter__";
    js "__defineSetter__";
    js "hasOwnProperty";
    js "__lookupGetter__";
    js "__lookupSetter__";
    js "isPrototypeOf";
    js "propertyIsEnumerable";
    js "toString";
    js "valueOf";
    js "__proto__";
    js "toLocaleString" ].

(** What reading a property of the entries object gives: the entry the
    object holds under that name; the member of [Object.prototype] of that
    name (a function, or for [__proto__] the prototype itself), which is not
    an entry; or [undefined]. *)
Inductive PropertyValue : Type :=
| Own (entry : Entry)
| Inherited (name : jsstring)
| Undefined.

(** The property access [O[P]] on the entries object: the object's own
    property when it has one under that name, else the property the
    prototype has under that name, else [undefined]. *)
Definition Get (O : gmap jsstring Entry) (P : jsstring) : PropertyValue :=
  match O !! P with
  | Some entry => Own entry
  | None =>
      if decide (P ∈ ObjectPrototype_properties) then Inherited P
      else Undefined
  end.

(** ToBoolean, as [if (entry)] applies it: an entry, a function and the
    prototype are objects, so only [undefined] is false. *)
Definition ToBoolean (v : PropertyValue) : bool :=
  match v with
  | Undefined => false
  | _ => true
  end.

(** ** Settings and plugin state *)

Record CitationsPluginSettings : Type := mkSettings {
  citationExportPath : jsstring;
  citationExportFormat : jsstring;
  literatureNoteTitleTemplate : jsstring;
  literatureNoteContentTemplate : jsstring;
  markdownCitationTemplate : jsstring;
  alternativeMarkdownCitationTemplate : jsstring
}.

(** The fields of [CitationPlugin] that loading and the readers touch.
    [loadWorker_blocked] is [this.loadWorker.blocked];
    [citationService_library] is [this.citationService.library];
    [loadErrorNotifier_shown] tells whether the load-error notice is up. *)
Record CitationPlugin : Type := mkPlugin {
  settings : CitationsPluginSettings;
  library : option Library;
  citationService_library : option Library;
  loadWorker_blocked : bool;
  loadErrorNotifier_shown : bool
}.

(** ** getCitations *)

(** One element of the array [getCitations] returns: what
    [entries[citekey]] gives and the matched text. *)
Definition Citation : Type := PropertyValue * jsstring.

(** The callback of [.map]: [const [line, citekey] = match]. *)
Definition citationOfMatch (lib : Library) (mr : MatchResult) : Citation :=
  let line := matched mr in
  let citekey := capture 1 (captures mr) in
  (Get (entries lib) (ToString citekey), line).

(** [getCitations(content)]; [None] is the [null] returned when no library
    is loaded. *)
Definition getCitations (this : CitationPlugin) (content : jsstring)
    : option (list Citation) :=
  match library this with
  | None => None
  | Some lib =>
      let matches := matchAll true citationPattern content in
      Some (map (citationOfMatch lib) matches)
  end.

(** ** loadLibrary *)

(** The [switch] on [settings.citationExportFormat]: the adapter class and
    the name of the record field holding the citekey. There is no [default:]
    branch; [None] leaves both [adapter] and [idKey] [undefined]. *)
Definition selectAdapter (format : jsstring)
    : option ((EntryData -> Entry) * jsstring) :=
  if decide (format = js "biblatex") then
    Some (EntryBibLaTeXAdapter, js "key")
  else if decide (format = js "csl-json") then
    Some (EntryCSLAdapter, js "id")
  else None.

(** [new Library(Object.fromEntries(entries.map((e) => [e[idKey], new
    adapter(e)])))]. With [adapter] undefined the callback of [map] throws
    a TypeError on the first record ([None]); on an empty batch it never
    runs. *)
Definition buildLibrary (format : jsstring) (batch : list EntryData)
    : option Library :=
  match selectAdapter format with
  | Some (adapter, idKey) =>
      Some (mkLibrary
        (fromEntries
          (map (fun e => (ToString (e !! idKey), adapter e)) batch)))
  | None =>
      match batch with
      | [] => Some (mkLibrary ∅)
      | _ :: _ => None
      end
  end.

(** The value the promise returned by [loadLibrary] resolves to. *)
Inductive Resolution : Type :=
| ResLibrary (l : Library)
| ResUndefined
| ResNull.

(** Where one call of [loadLibrary] stands. *)
Inductive CallState : Type :=
| AwaitingRead
| AwaitingWorker
| Resolved (v : Resolution).

(** The plugin together with the calls of [loadLibrary] made so far, the
    [i]-th call at index [i]. *)
Record World : Type := mkWorld {
  plugin : CitationPlugin;
  calls : list CallState
}.

(** What the event loop can deliver: a call of [loadLibrary], the
    settlement of the file read of call [i], the settlement of the parse job
    posted by call [i]. *)
Inductive Event : Type :=
| Call
| ReadResolved (i : nat) (value : jsstring)
| ReadRejected (i : nat)
| WorkerResolved (i : nat) (batch : list EntryData)
| WorkerRejected (i : nat).

Definition setLibrary (l : option Library) (p : CitationPlugin)
    : CitationPlugin :=
  mkPlugin (settings p) l (citationService_library p)
    (loadWorker_blocked p) (loadErrorNotifier_shown p).

Definition setCitationServiceLibrary (l : option Library)
    (p : CitationPlugin) : CitationPlugin :=
  mkPlugin (settings p) (library p) l
    (loadWorker_blocked p) (loadErrorNotifier_shown p).

Definition setBlocked (b : bool) (p : CitationPlugin) : CitationPlugin :=
  mkPlugin (settings p) (library p) (citationService_library p)
    b (loadErrorNotifier_shown p).

(** [loadErrorNotifier.show()] / [.hide()]. *)
Definition setNotifier (b : bool) (p : CitationPlugin) : CitationPlugin :=
  mkPlugin (settings p) (library p) (citationService_library p)
    (loadWorker_blocked p) b.

(** The [.catch] handler for an error that is not a
    [WorkerManagerBlocked]: show the notice, resolve with [null]. *)
Definition catchError (p : CitationPlugin) : CitationPlugin * Resolution :=
  (setNotifier true p, ResNull).

(** The [.catch] handler for [WorkerManagerBlocked]: a bare [return]. *)
Definition catchBlocked (p : CitationPlugin) : CitationPlugin * Resolution :=
  (p, ResUndefined).

(** The synchronous part of [loadLibrary()]: with an export path set,
    unload the current library and start reading the file; without one,
    warn and return. *)
Definition loadLibrary_call (p : CitationPlugin)
    : CitationPlugin * CallState :=
  match citationExportPath (settings p) with
  | _ :: _ => (setLibrary None p, AwaitingRead)
  | [] => (p, Resolved ResUndefined)
  end.

(** Modelled from the spec: [WorkerManager] is declared in [./util], which
    is not part of the sources. Its [post] on an idle channel makes it busy
    and hands the job over ([inr]); [post] on a busy channel does not queue
    the request and fails at once with the Blocked signal ([inl]), leaving
    the channel as it is. *)
Definition WorkerManager_post (p : CitationPlugin)
    : CitationPlugin + CitationPlugin :=
  if loadWorker_blocked p then inl p else inr (setBlocked true p).

(** Modelled from the spec: when the job completes, with a result or with a
    failure, the channel of the [WorkerManager] returns to idle. *)
Definition WorkerManager_settle (p : CitationPlugin) : CitationPlugin :=
  setBlocked false p.

(** The first [.then]: hide the notice, decode, post to the worker. *)
Definition loadLibrary_onRead (p : CitationPlugin)
    : CitationPlugin * CallState :=
  match WorkerManager_post (setNotifier false p) with
  | inr p' => (p', AwaitingWorker)
  | inl p' => let (p'', v) := catchBlocked p' in (p'', Resolved v)
  end.

(** The second [.then]: build the library from the batch, store it in
    [this.library] and in [this.citationService.library], resolve with it.
    (The status-bar update and the debug log leave the state alone.) An
    exception thrown while building reaches the [.catch]. *)
Definition loadLibrary_onEntries (batch : list EntryData)
    (p : CitationPlugin) : CitationPlugin * CallState :=
  match buildLibrary (citationExportFormat (settings p)) batch with
  | Some lib =>
      let p1 := setLibrary (Some lib) p in
      let p2 := setCitationServiceLibrary (library p1) p1 in
      (p2, Resolved (ResLibrary lib))
  | None => let (p', v) := catchError p in (p', Resolved v)
  end.

Definition setCall (i : nat) (c : CallState) (w : list CallState)
    : list CallState := <[i := c]> w.

(** One step of the event loop: the synchronous block the event triggers,
    run to its end together with the promise reactions it queues. [None]
    when the event cannot occur in this world (call [i] is not waiting for
    it). *)
Definition step (w : World) (ev : Event) : option World :=
  match ev with
  | Call =>
      let (p, c) := loadLibrary_call (plugin w) in
      Some (mkWorld p (calls w ++ [c]))
  | ReadResolved i _ =>
      match calls w !! i with
      | Some AwaitingRead =>
          let (p, c) := loadLibrary_onRead (plugin w) in
          Some (mkWorld p (setCall i c (calls w)))
      | _ => None
      end
  | ReadRejected i =>
      match calls w !! i with
      | Some AwaitingRead =>
          let (p, v) := catchError (plugin w) in
          Some (mkWorld p (setCall i (Resolved v) (calls w)))
      | _ => None
      end
  | WorkerResolved i batch =>
      match calls w !! i with
      | Some AwaitingWorker =>
          let (p, c) :=
            loadLibrary_onEntries batch (WorkerManager_settle (plugin w)) in
          Some (mkWorld p (setCall i c (calls w)))
      | _ => None
      end
  | WorkerRejected i =>
      match calls w !! i with
      | Some AwaitingWorker =>
          let (p, v) := catchError (WorkerManager_settle (plugin w)) in
          Some (mkWorld p (setCall i (Resolved v) (calls w)))
      | _ => None
      end
  end.

(** A sequence of events, each enabled when it occurs. *)
Fixpoint run (w : World) (evs : list Event) : option World :=
  match evs with
  | [] => Some w
  | ev :: evs' =>
      match step w ev with
      | Some w' => run w' evs'
      | None => None
      end
  end.

(** A call is in flight until its promise resolves. *)
Definition inFlight (w : World) (i : nat) : Prop :=
  calls w !! i = Some AwaitingRead \/ calls w !! i = Some AwaitingWorker.

(** In a consistent world the channel is busy exactly when one call awaits
    the worker, and at most one does. *)
Definition consistent (w : World) : Prop :=
  (loadWorker_blocked (plugin w) = true <->
     exists i, calls w !! i = Some AwaitingWorker) /\
  (forall i j, calls w !! i = Some AwaitingWorker ->
     calls w !! j = Some AwaitingWorker -> i = j).

(** The plugin right after construction: nothing loaded, channel idle. *)
Definition initialWorld (s : CitationsPluginSettings) : World :=
  mkWorld (mkPlugin s None None false false) [].

(** ** Templates *)

(** Modelled from the spec: [compile] is imported from the handlebars
    package, which is not part of the sources. A template is literal text
    with [{{name}}] expressions; rendering replaces each expression by the
    value of the variable (nothing when it is unset), entity-escaped unless
    the [noEscape] option is set. *)
Inductive Segment : Type :=
| Content (text : jsstring)
| Mustache (name : jsstring).

Record CompileOptions : Type := mkOptions { noEscape : bool }.

Abbreviation TemplateVariables := (gmap jsstring jsstring).

Definition Template : Type := TemplateVariables -> jsstring.

(** Split a template source into segments; [None] for an expression that
    is never closed. [acc] holds the current segment, reversed. *)
Fixpoint scan (inMustache : bool) (acc : jsstring) (src : jsstring)
    : option (list Segment) :=
  match src with
  | [] => if inMustache then None else Some [Content (rev acc)]
  | c :: src' =>
      match src' with
      | [] =>
          if inMustache then None else Some [Content (rev (c :: acc))]
      | d :: src'' =>
          if inMustache then
            if (c =? ch "}")%N && (d =? ch "}")%N
            then cons (Mustache (rev acc)) <$> scan false [] src''
            else scan true (c :: acc) src'
          else
            if (c =? ch "{")%N && (d =? ch "{")%N
            then cons (Content (rev acc)) <$> scan true [] src''
            else scan false (c :: acc) src'
      end
  end.

(** The entity replacing a code unit under escaping. *)
Definition escapeChar (c : N) : jsstring :=
  if (c =? ch "&")%N then js "&amp;"
  else if (c =? ch "<")%N then js "&lt;"
  else if (c =? ch ">")%N then js "&gt;"
  else if (c =? 34)%N then js "&quot;"
  else if (c =? ch "'")%N then js "&#x27;"
  else if (c =? ch "`")%N then js "&#x60;"
  else if (c =? ch "=")%N then js "&#x3D;"
  else [c].

Definition escapeExpression (s : jsstring) : jsstring :=
  flat_map escapeChar s.

Definition renderSegment (options : CompileOptions)
    (vars : TemplateVariables) (seg : Segment) : jsstring :=
  match seg with
  | Content text => text
  | Mustache name =>
      match vars !! name with
      | Some v => if noEscape options then v else escapeExpression v
      | None => []
      end
  end.

(** Modelled from the spec: handlebars' [compile(source, options)], giving
    the render function; [None] when the source is malformed. *)
Definition compileTemplate (source : jsstring) (options : CompileOptions)
    : option Template :=
  match scan false [] source with
  | Some segs => Some (fun vars => flat_map (renderSegment options vars) segs)
  | None => None
  end.

(** [private templateSettings = { noEscape: true }]. *)
Definition templateSettings : CompileOptions := mkOptions true.

(** The four template getters of the plugin; each compiles its setting
    anew. *)
Definition get_literatureNoteTitleTemplate (this : CitationPlugin)
    : option Template :=
  compileTemplate (literatureNoteTitleTemplate (settings this))
    templateSettings.

Definition get_literatureNoteContentTemplate (this : CitationPlugin)
    : option Template :=
  compileTemplate (literatureNoteContentTemplate (settings this))
    templateSettings.

Definition get_markdownCitationTemplate (this : CitationPlugin)
    : option Template :=
  compileTemplate (markdownCitationTemplate (settings this))
    templateSettings.

Definition get_alternativeMarkdownCitationTemplate (this : CitationPlugin)
    : option Template :=
  compileTemplate (alternativeMarkdownCitationTemplate (settings this))
    templateSettings.

(** The template kinds, and the getter of each. *)
Inductive TemplateKind : Type :=
| TitleTemplate
| ContentTemplate
| CitationTemplate
| AlternativeCitationTemplate.

Definition templateOf (kind : TemplateKind) (this : CitationPlugin)
    : option Template :=
  match kind with
  | TitleTemplate => get_literatureNoteTitleTemplate this
  | ContentTemplate => get_literatureNoteContentTemplate this
  | CitationTemplate => get_markdownCitationTemplate this
  | AlternativeCitationTemplate =>
      get_alternativeMarkdownCitationTemplate this
  end.

Definition templateSource (kind : TemplateKind)
    (s : CitationsPluginSettings) : jsstring :=
  match kind with
  | TitleTemplate => literatureNoteTitleTemplate s
  | ContentTemplate => literatureNoteContentTemplate s
  | CitationTemplate => markdownCitationTemplate s
  | AlternativeCitationTemplate => alternativeMarkdownCitationTemplate s
  end.

(** ** postProcessMarkdown *)

(** Is [p] a prefix of [s]? *)
Fixpoint startsWith (p s : jsstring) : bool :=
  match p, s with
  | [], _ => true
  | _ :: _, [] => false
  | a :: p', b :: s' => (a =? b)%N && startsWith p' s'
  end.

(** The first occurrence of [needle] in [s]: the text before it and the
    text after it. *)
Fixpoint splitFirst (needle s : jsstring) : option (jsstring * jsstring) :=
  if startsWith needle s then Some ([], drop (length needle) s)
  else
    match s with
    | [] => None
    | c :: s' =>
        match splitFirst needle s' with
        | Some (before, after) => Some (c :: before, after)
        | None => None
        end
    end.

(** [s.includes(needle)]. *)
Definition includes (s needle : jsstring) : bool :=
  match splitFirst needle s with
  | Some _ => true
  | None => false
  end.

(** GetSubstitution for a string pattern (no captures): [$$] is a dollar
    sign, [$&] the matched text, [$`] the text before the match, [$'] the
    text after it; any other [$] stands for itself. *)
Fixpoint getSubstitution (matched_ before after replacement : jsstring)
    : jsstring :=
  match replacement with
  | [] => []
  | c :: r' =>
      if (c =? ch "$")%N then
        match r' with
        | [] => [c]
        | d :: r'' =>
            if (d =? ch "$")%N then
              ch "$" :: getSubstitution matched_ before after r''
            else if (d =? ch "&")%N then
              matched_ ++ getSubstitution matched_ before after r''
            else if (d =? ch "`")%N then
              before ++ getSubstitution matched_ before after r''
            else if (d =? ch "'")%N then
              after ++ getSubstitution matched_ before after r''
            else c :: getSubstitution matched_ before after r'
        end
      else c :: getSubstitution matched_ before after r'
  end.

(** [s.replace(searchString, replaceValue)] with two strings: only the
    first occurrence is replaced. *)
Definition replace (s searchString replaceValue : jsstring) : jsstring :=
  match splitFirst searchString s with
  | None => s
  | Some (before, after) =>
      before ++ getSubstitution searchString before after replaceValue
             ++ after
  end.

(** The parts of a link the post-processor reads and writes; [innerHTML] is
    what the getter returns, the serialisation of the link's content. *)
Record HTMLAnchorElement : Type := mkAnchor {
  pathname : jsstring;
  innerHTML : jsstring;
  classList : list jsstring
}.

(** An element selected by ['a.internal-link']. *)
Inductive Element : Type :=
| Anchor (link : HTMLAnchorElement)
| NotAnchor.

(** [link.addClass(cls)]. *)
Definition addClass (cls : jsstring) (link : HTMLAnchorElement)
    : HTMLAnchorElement :=
  mkAnchor (pathname link) (innerHTML link)
    (if decide (cls ∈ classList link) then classList link
     else classList link ++ [cls]).

Definition NO_PRINTED_FORM : jsstring := js "NO_PRINTED_FORM".

Section Preview.

(** [this.citationService.getCitation], declared in [./citation-service]:
    the formatting engine, taken as given. *)
Variable getCitation : jsstring -> bool -> jsstring.

(** What the [innerHTML] getter returns once the setter was given a piece
    of markup: the setter parses the markup into the link's content and the
    getter serialises that content again (the HTML fragment parsing and
    serialisation of the browser), so the text read back need not be the
    text assigned. Taken as given. *)
Variable reserialize : jsstring -> jsstring.

(** [link.innerHTML = html]. *)
Definition setInnerHTML (html : jsstring) (link : HTMLAnchorElement)
    : HTMLAnchorElement :=
  mkAnchor (pathname link) (reserialize html) (classList link).

(** The callback of [forEach], run on one selected element. *)
Definition processLink (lib : Library) (el : Element) : Element :=
  match el with
  | NotAnchor => el
  | Anchor link =>
      match match_ false pathnamePattern (pathname link) with
      | None => el
      | Some mr =>
          let fullMatch := ToString (capture 1 (captures mr)) in
          let citekey := ToString (capture 2 (captures mr)) in
          let entry := Get (entries lib) citekey in
          if ToBoolean entry then
            let citation := getCitation citekey true in
            if includes citation NO_PRINTED_FORM then el
            else
              Anchor
                (addClass (js "citation-link")
                  (setInnerHTML
                    (replace (innerHTML link) fullMatch citation) link))
          else el
      end
  end.

(** [postProcessMarkdown(el, ctx)] on the elements [el.querySelectorAll]
    selects, returning them as the callback leaves them. *)
Definition postProcessMarkdown (this : CitationPlugin)
    (selected : list Element) : list Element :=
  match library this with
  | None => selected
  | Some lib => map (processLink lib) selected
  end.

End Preview.

(** ** Auxiliary notions for the properties *)

(** [s'] is a state a matcher started at [s] can hand to its continuation:
    the same input, at the same position or further right. *)
Definition reach (s s' : mstate) : Prop :=
  rev (prev s') ++ rest s' = rev (prev s) ++ rest s /\
  length (rest s') <= length (rest s).

(** A matcher respects its continuation when it only consults it on
    reachable states. *)
Definition respects (body : mstate -> cont -> option mstate) : Prop :=
  forall s k1 k2,
    (forall s', reach s s' -> k1 s' = k2 s') -> body s k1 = body s k2.

(** A successful run ends in a reachable state accepted by the
    continuation. *)
Definition sound (body : mstate -> cont -> option mstate) : Prop :=
  forall s k e, body s k = Some e -> exists s', reach s s' /\ k s' = Some e.

(** Patterns anchored at both ends, like [/^ ... $/]. *)
Fixpoint startsWithBol (r : regex) : bool :=
  match r with
  | Bol => true
  | Cat r1 _ => startsWithBol r1
  | _ => false
  end.

Fixpoint endsWithEol (r : regex) : bool :=
  match r with
  | Eol => true
  | Cat _ r2 => endsWithEol r2
  | _ => false
  end.

(** A text without line terminators: one line. *)
Definition singleLine (line : jsstring) : Prop :=
  Forall (fun c => isLineTerminator c = false) line.

(** A segment rendered with the value of its variable as it is. *)
Definition rawSegment (vars : TemplateVariables) (seg : Segment) : jsstring :=
  match seg with
  | Content text => text
  | Mustache name => default [] (vars !! name)
  end.

(** ** Closed instances *)

Definition smithLine : jsstring := js "See [[@smith2020]] for details.".

Definition agreeLine : jsstring := js "[[@a2020]] and [[@b2021]] agree.".

Definition sampleRecord : EntryData := {[ js "id" := js "smith2020" ]}.

Definition otherRecord : EntryData := {[ js "id" := js "jones2021" ]}.

Definition sampleLibrary : Library :=
  mkLibrary {[ js "smith2020" := EntryCSLAdapter sampleRecord ]}.

Definition sampleSettings : CitationsPluginSettings :=
  mkSettings (js "library.json") (js "csl-json")
    (js "@{{citekey}}") (js "{{title}}") (js "[@{{citekey}}]")
    (js "@{{citekey}}").

(** A plugin whose library holds one entry. *)
Definition samplePlugin : CitationPlugin :=
  mkPlugin sampleSettings (Some sampleLibrary) (Some sampleLibrary)
    false false.

(** The world after one successful load of [sampleRecord]. *)
Definition loadedWorld : World :=
  mkWorld samplePlugin [Resolved (ResLibrary sampleLibrary)].

(** [loadedWorld] once a second call of [loadLibrary] has begun. *)
Definition reloadingWorld : World :=
  mkWorld (setLibrary None samplePlugin)
    [Resolved (ResLibrary sampleLibrary); AwaitingRead].

Definition otherLibrary : Library :=
  mkLibrary {[ js "jones2021" := EntryCSLAdapter otherRecord ]}.

(** [reloadingWorld] once that call has loaded [otherRecord]. *)
Definition reloadedWorld : World :=
  mkWorld (mkPlugin sampleSettings (Some otherLibrary) (Some otherLibrary)
             false false)
    [Resolved (ResLibrary sampleLibrary); Resolved (ResLibrary otherLibrary)].

(** The world in which the first call is waiting for the worker and a
    second call has begun and is reading the file. *)
Definition blockedWorld : World :=
  mkWorld (mkPlugin sampleSettings None None true false)
    [AwaitingWorker; AwaitingRead].

Definition sampleLink : HTMLAnchorElement :=
  mkAnchor (js "/@smith2020") (js "@smith2020") [js "internal-link"].

(** ** Further operations *)

(** The property key under which [loadLibrary] files a record. *)
Definition keyOf (idKey : jsstring) (e : EntryData) : jsstring :=
  ToString (e !! idKey).

(** [get isLibraryLoading()]. *)
Definition isLibraryLoading (this : CitationPlugin) : bool :=
  loadWorker_blocked this.

(** Whenever the plugin holds a library the citation service holds it too. *)
Definition serviceInSync (p : CitationPlugin) : Prop :=
  forall lib, library p = Some lib -> citationService_library p = Some lib.

(** No call of [loadLibrary] is in flight. *)
Definition quiescent (w : World) : Prop :=
  forall i c, calls w !! i = Some c -> exists v, c = Resolved v.

Section LiteratureNotes.

(** [Library.getTemplateVariablesForCitekey], declared in [./types]; [None]
    when it throws. *)
Variable getTemplateVariablesForCitekey :
  Library -> jsstring -> option TemplateVariables.

(** [unsafeTitle.replace(DISALLOWED_FILENAME_CHARACTERS_RE, '_')]; the
    pattern is declared in [./util]. *)
Variable replaceDisallowed : jsstring -> jsstring.

(** [template(this.library.getTemplateVariablesForCitekey(citekey))]: the
    call on [this.library] throws a TypeError when no library is loaded;
    [None] is a thrown exception. *)
Definition renderForCitekey (template : option Template)
    (this : CitationPlugin) (citekey : jsstring) : option jsstring :=
  match library this with
  | None => None
  | Some lib =>
      match getTemplateVariablesForCitekey lib citekey with
      | None => None
      | Some vars =>
          match template with
          | Some render => Some (render vars)
          | None => None
          end
      end
  end.

Definition getTitleForCitekey (this : CitationPlugin) (citekey : jsstring)
    : option jsstring :=
  replaceDisallowed <$>
    renderForCitekey (get_literatureNoteTitleTemplate this) this citekey.

Definition getInitialContentForCitekey (this : CitationPlugin)
    (citekey : jsstring) : option jsstring :=
  renderForCitekey (get_literatureNoteContentTemplate this) this citekey.

Definition getMarkdownCitationForCitekey (this : CitationPlugin)
    (citekey : jsstring) : option jsstring :=
  renderForCitekey (get_markdownCitationTemplate this) this citekey.

Definition getAlternativeMarkdownCitationForCitekey (this : CitationPlugin)
    (citekey : jsstring) : option jsstring :=
  renderForCitekey (get_alternativeMarkdownCitationTemplate this) this
    citekey.

(** [insertMarkdownCitation(citekey, alternative)]: the text handed to
    [editor.replaceRange]; [None] when computing it throws, before the
    editor is touched. *)
Definition insertMarkdownCitation (this : CitationPlugin)
    (citekey : jsstring) (alternative : bool) : option jsstring :=
  let func :=
    if alternative then getAlternativeMarkdownCitationForCitekey
    else getMarkdownCitationForCitekey in
  func this citekey.

(** [insertLiteratureNoteContent(citekey)]: the text handed to
    [editor.replaceRange]. *)
Definition insertLiteratureNoteContent (this : CitationPlugin)
    (citekey : jsstring) : option jsstring :=
  getInitialContentForCitekey this citekey.

End LiteratureNotes.

(** A link the post-processor takes for a citation of the library: its
    pathname is "/@" followed by a citekey the library holds. *)
Definition citesEntry (lib : Library) (link : HTMLAnchorElement)
    (citekey : jsstring) : Prop :=
  citekey <> [] /\ singleLine citekey /\
  pathname link = ch "/" :: ch "@" :: citekey /\
  is_Some (entries lib !! citekey).

(** A link the post-processor processes: its pathname is "/@" followed by
    a citekey under which the entries object reads as something other than
    [undefined]. *)
Definition resolves (lib : Library) (link : HTMLAnchorElement)
    (citekey : jsstring) : Prop :=
  citekey <> [] /\ singleLine citekey /\
  pathname link = ch "/" :: ch "@" :: citekey /\
  Get (entries lib) citekey <> Undefined.

(** [needle] stands in [s] between [before] and [after], and nowhere
    further left. *)
Definition firstOccurrence (needle s before after : jsstring) : Prop :=
  s = before ++ needle ++ after /\
  forall a b, s = a ++ needle ++ b -> length before <= length a.

(** A replacement text in which no [$] pattern can occur. *)
Definition noDollar (s : jsstring) : Prop := Forall (fun c => c <> ch "$") s.

(** The setting names [loadSettings] copies. *)
Definition toLoad : list jsstring :=
  [ js "citationExportPath";
    js "citationExportFormat";
    js "literatureNoteTitleTemplate";
    js "literatureNoteFolder";
    js "literatureNoteContentTemplate";
    js "markdownCitationTemplate";
    js "alternativeMarkdownCitationTemplate" ].

Section LoadSettings.

(** The values a setting can hold. *)
Context {V : Type}.

(** The callback of [toLoad.forEach]: copy [setting] when it is [in] the
    loaded object. *)
Definition copySetting (loadedSettings : gmap jsstring V)
    (settings : gmap jsstring V) (setting : jsstring) : gmap jsstring V :=
  match loadedSettings !! setting with
  | Some v => <[setting := v]> settings
  | None => settings
  end.

(** [loadSettings()], the settings read as an indexable object:
    [defaults] is [new CitationsPluginSettings()] (declared in
    [./settings]), [loadedSettings] what [loadData()] resolves to, [None]
    when it is [null]. *)
Definition loadSettings (defaults : gmap jsstring V)
    (loadedSettings : option (gmap jsstring V)) : gmap jsstring V :=
  match loadedSettings with
  | None => defaults
  | Some loaded => fold_left (copySetting loaded) toLoad defaults
  end.

End LoadSettings.

(** ** Further auxiliary notions *)

(** Does every match of [r] consume the code unit [c]? (A sufficient
    syntactic test.) *)
Fixpoint mustEat (c : N) (r : regex) : bool :=
  match r with
  | Chr c' => N.eqb c' c
  | Cat r1 r2 => mustEat c r1 || mustEat c r2
  | Plus _ r' => mustEat c r'
  | Group _ r' => mustEat c r'
  | _ => false
  end.

Definition locatorPattern : regex :=
  Plus true (Class false [ch "#"; ch "^"]) +++
  Plus true (Class true [ch "]"]).

(** The part of [citationPattern] after its leading [^.*]. *)
Definition referencePattern : regex :=
  Chr (ch "[") +++ Opt true (Chr (ch "[")) +++ Chr (ch "@") +++
  Group 1 (Plus false (Class true [ch "]"])) +++
  Opt true locatorPattern +++
  Chr (ch "]") +++ Opt true (Chr (ch "]")) +++
  Star true Dot +++ Eol.

(** A code unit of a citekey that a reference can carry as it is: not a
    bracket, not the start of a locator, not a line terminator. *)
Definition plainKeyChar (c : N) : bool :=
  negb (isLineTerminator c) &&
  negb (inClass [ch "["; ch "]"; ch "#"; ch "^"] c).

Definition plainCitekey (citekey : jsstring) : Prop :=
  citekey <> [] /\ Forall (fun c => plainKeyChar c = true) citekey.

(** The text of a reference: "[@citekey]". *)
Definition reference (citekey : jsstring) : jsstring :=
  ch "[" :: ch "@" :: citekey ++ [ch "]"].

(** The marks that open a locator: one or more of "#" and "^". *)
Definition locatorMarks (marks : jsstring) : Prop :=
  marks <> [] /\ Forall (fun c => inClass [ch "#"; ch "^"] c = true) marks.

(** The text of a reference with a locator: "[@citekey", the marks, the
    locator text and "]". *)
Definition locatedReference (citekey marks locator : jsstring) : jsstring :=
  ch "[" :: ch "@" :: citekey ++ marks ++ locator ++ [ch "]"].

(** A pattern without capturing parentheses. *)
Fixpoint groupFree (r : regex) : bool :=
  match r with
  | Group _ _ => false
  | Cat r1 r2 => groupFree r1 && groupFree r2
  | Star _ r' | Plus _ r' | Opt _ r' => groupFree r'
  | _ => true
  end.

(** A run of [body] leaves the captures as they are. *)
Definition keepsCaps (body : mstate -> cont -> option mstate) : Prop :=
  forall s k e,
    body s k = Some e ->
    exists s', reach s s' /\ caps s' = caps s /\ k s' = Some e.

(** [a] is empty or ends with a line terminator: what follows it starts a
    line. *)
Definition endsLine (a : jsstring) : Prop :=
  a = [] \/ exists a' c, a = a' ++ [c] /\ isLineTerminator c = true.

(** [b] is empty or starts with a line terminator: what precedes it ends a
    line. *)
Definition startsLine (b : jsstring) : Prop :=
  b = [] \/ exists c b', b = c :: b' /\ isLineTerminator c = true.

(** The number of line terminators of a text; its lines are one more. *)
Fixpoint lineTerminators (s : jsstring) : nat :=
  match s with
  | [] => 0
  | c :: s' => (if isLineTerminator c then 1 else 0) + lineTerminators s'
  end.

(** ** Further closed instances *)

(** Two lines, the second one [smithLine]. *)
Definition twoLines : jsstring := js "Sources." ++ [10%N] ++ smithLine.

(** Two lines holding three references. *)
Definition threeReferences : jsstring := agreeLine ++ [10%N] ++ smithLine.

(** A later record for the citekey of [sampleRecord]. *)
Definition revisedRecord : EntryData :=
  {[ js "id" := js "smith2020"; js "title" := js "Second edition" ]}.

(** Settings whose export format is neither of the two the plugin knows. *)
Definition misconfiguredSettings : CitationsPluginSettings :=
  mkSettings (js "library.bib") (js "bibtex")
    (js "@{{citekey}}") (js "{{title}}") (js "[@{{citekey}}]")
    (js "@{{citekey}}").

(** Settings without an export path. *)
Definition pathlessSettings : CitationsPluginSettings :=
  mkSettings [] (js "csl-json")
    (js "@{{citekey}}") (js "{{title}}") (js "[@{{citekey}}]")
    (js "@{{citekey}}").

(** [reloadingWorld] once the file of the second call has been read. *)
Definition reparsingWorld : World :=
  mkWorld (mkPlugin sampleSettings None (Some sampleLibrary) true false)
    [Resolved (ResLibrary sampleLibrary); AwaitingWorker].

(** A link to a note that is not a citation. *)
Definition noteLink : HTMLAnchorElement :=
  mkAnchor (js "/notes/todo") (js "todo") [js "internal-link"].

(** A link to a citekey that [sampleLibrary] does not hold. *)
Definition unknownLink : HTMLAnchorElement :=
  mkAnchor (js "/@nobody1999") (js "@nobody1999") [js "internal-link"].

(** A link to smith2020 shown under an alias. *)
Definition aliasedLink : HTMLAnchorElement :=
  mkAnchor (js "/@smith2020") (js "Smith's book") [js "internal-link"].

(** * Properties *)

(** ** The matcher *)

Lemma reach_refl (s : mstate) : reach s s.
Proof. split; [reflexivity|lia]. Qed.

Lemma reach_trans (s1 s2 s3 : mstate) : reach s1 s2 -> reach s2 s3 -> reach s1 s3.
Proof. intros [H1 L1] [H2 L2]. split; [congruence|lia]. Qed.

Lemma reach_caps (s s' : mstate) (cs : list (nat * jsstring)) :
  reach s s' -> reach s (MState (prev s') (rest s') cs).
Proof. unfold reach. simpl. auto. Qed.

Lemma reach_step (before after : list N) (c : N)
    (cs cs' : list (nat * jsstring)) :
  reach (MState before (c :: after) cs) (MState (c :: before) after cs').
Proof.
  split; simpl; [|lia]. rewrite <- app_assoc. reflexivity.
Qed.

Lemma reach_length (s s' : mstate) :
  reach s s' ->
  endIndex s' + length (rest s') = endIndex s + length (rest s).
Proof.
  intros [H _]. apply (f_equal (@length N)) in H.
  rewrite !length_app, !length_rev in H. exact H.
Qed.

Lemma reach_progress (s s' : mstate) :
  reach s s' -> endIndex s' <> endIndex s -> length (rest s') < length (rest s).
Proof. intros H Hne. pose proof (reach_length _ _ H). destruct H. lia. Qed.

Lemma eat_respects (p : N -> bool) : respects (eat p).
Proof.
  intros s k1 k2 Hk. unfold eat. destruct (rest s) as [|c cs] eqn:Hr; [reflexivity|].
  destruct (p c); [|reflexivity]. apply Hk.
  destruct s as [before after cs0]. simpl in *. subst after. apply reach_step.
Qed.

Lemma repeat_respects (body : mstate -> cont -> option mstate) (greedy : bool) :
  respects body ->
  forall fuel s k1 k2,
    (forall s', reach s s' -> k1 s' = k2 s') ->
    repeat body greedy k1 fuel s = repeat body greedy k2 fuel s.
Proof.
  intros Hbody. induction fuel as [|fuel IH]; intros s k1 k2 Hk; simpl.
  - apply Hk, reach_refl.
  - rewrite (Hk s (reach_refl s)).
    rewrite (Hbody s _ (fun s' =>
      if Nat.eqb (endIndex s') (endIndex s) then None
      else repeat body greedy k2 fuel s')); [reflexivity|].
    intros s' Hs'. destruct (Nat.eqb _ _); [reflexivity|].
    apply IH. intros s'' Hs''. apply Hk. eapply reach_trans; eauto.
Qed.

Lemma m_respects (multiline : bool) (r : regex) : respects (m multiline r).
Proof.
  induction r; intros s k1 k2 Hk; cbn [m].
  - apply eat_respects, Hk.
  - apply eat_respects, Hk.
  - apply eat_respects, Hk.
  - destruct (atBol multiline s); [apply Hk, reach_refl|reflexivity].
  - destruct (atEol multiline s); [apply Hk, reach_refl|reflexivity].
  - apply IHr1. intros s' Hs'. apply IHr2. intros s'' Hs''.
    apply Hk. eapply reach_trans; eauto.
  - apply repeat_respects; assumption.
  - apply IHr. intros s' Hs'. apply repeat_respects; [assumption|].
    intros s'' Hs''. apply Hk. eapply reach_trans; eauto.
  - rewrite (Hk s (reach_refl s)).
    rewrite (IHr s _ (fun s' =>
      if Nat.eqb (endIndex s') (endIndex s) then None else k2 s'));
      [reflexivity|].
    intros s' Hs'. destruct (Nat.eqb _ _); [reflexivity|]. apply Hk, Hs'.
  - apply IHr. intros s' Hs'. apply Hk. apply reach_caps. exact Hs'.
Qed.

(** More fuel than the input is long changes nothing. *)
Lemma repeat_fuel (body : mstate -> cont -> option mstate) (greedy : bool)
    (k : cont) :
  respects body ->
  forall f1 f2 s,
    length (rest s) < f1 -> length (rest s) < f2 ->
    repeat body greedy k f1 s = repeat body greedy k f2 s.
Proof.
  intros Hbody. induction f1 as [|f1 IH]; intros f2 s H1 H2; [lia|].
  destruct f2 as [|f2]; [lia|]. simpl.
  rewrite (Hbody s _ (fun s' =>
    if Nat.eqb (endIndex s') (endIndex s) then None
    else repeat body greedy k f2 s')); [reflexivity|].
  intros s' Hs'. destruct (Nat.eqb _ _) eqn:He; [reflexivity|].
  apply Nat.eqb_neq in He. pose proof (reach_progress _ _ Hs' He).
  apply IH; lia.
Qed.

Lemma m_Star (multiline greedy : bool) (r : regex) (s : mstate) (k : cont) :
  m multiline (Star greedy r) s k =
  repeat (m multiline r) greedy k (S (length (rest s))) s.
Proof. reflexivity. Qed.

(** The defining equation of the RepeatMatcher, free of fuel: [r*] tries
    one more non-empty iteration followed by [r*] again, and the
    continuation, in the order its greediness gives. *)
Theorem m_Star_unfold (multiline greedy : bool) (r : regex) (s : mstate)
    (k : cont) :
  m multiline (Star greedy r) s k =
  let again :=
    m multiline r s (fun s' =>
      if Nat.eqb (endIndex s') (endIndex s) then None
      else m multiline (Star greedy r) s' k) in
  if greedy then orElse again (k s) else orElse (k s) again.
Proof.
  rewrite m_Star. cbn [repeat]. cbv zeta.
  rewrite (m_respects multiline r s _ (fun s' =>
    if Nat.eqb (endIndex s') (endIndex s) then None
    else m multiline (Star greedy r) s' k)); [reflexivity|].
  intros s' Hs'. destruct (Nat.eqb _ _) eqn:He; [reflexivity|].
  apply Nat.eqb_neq in He. pose proof (reach_progress _ _ Hs' He).
  rewrite m_Star. apply repeat_fuel; [apply m_respects|lia|lia].
Qed.

Lemma orElse_Some (a b : option mstate) (e : mstate) :
  orElse a b = Some e -> a = Some e \/ b = Some e.
Proof. destruct a; simpl; auto. Qed.

Lemma eat_sound (p : N -> bool) : sound (eat p).
Proof.
  intros s k e. unfold eat. destruct (rest s) as [|c cs] eqn:Hr; [discriminate|].
  destruct (p c); [|discriminate]. intros H. eexists. split; [|exact H].
  destruct s as [before after cs0]. simpl in *. subst after. apply reach_step.
Qed.

Lemma repeat_sound (body : mstate -> cont -> option mstate) (greedy : bool) :
  sound body ->
  forall fuel s k e,
    repeat body greedy k fuel s = Some e ->
    exists s', reach s s' /\ k s' = Some e.
Proof.
  intros Hbody. induction fuel as [|fuel IH]; intros s k e H; simpl in H.
  - exists s. split; [apply reach_refl|exact H].
  - assert (body s (fun s' =>
              if Nat.eqb (endIndex s') (endIndex s) then None
              else repeat body greedy k fuel s') = Some e \/ k s = Some e)
      as [Hagain|Hk].
    { destruct greedy; apply orElse_Some in H; tauto. }
    + apply Hbody in Hagain as (s' & Hs' & Hrec).
      destruct (Nat.eqb _ _); [discriminate|].
      apply IH in Hrec as (s'' & Hs'' & Hk). exists s''.
      split; [eapply reach_trans; eauto|exact Hk].
    + exists s. split; [apply reach_refl|exact Hk].
Qed.

Lemma m_sound (multiline : bool) (r : regex) : sound (m multiline r).
Proof.
  induction r; intros s k e H; cbn [m] in H.
  - eapply eat_sound; eauto.
  - eapply eat_sound; eauto.
  - eapply eat_sound; eauto.
  - destruct (atBol multiline s); [|discriminate]. exists s. split; [apply reach_refl|exact H].
  - destruct (atEol multiline s); [|discriminate]. exists s. split; [apply reach_refl|exact H].
  - apply IHr1 in H as (s1 & H1 & H). apply IHr2 in H as (s2 & H2 & H).
    exists s2. split; [eapply reach_trans; eauto|exact H].
  - eapply repeat_sound; eauto.
  - apply IHr in H as (s1 & H1 & H).
    apply (repeat_sound _ _ IHr) in H as (s2 & H2 & H).
    exists s2. split; [eapply reach_trans; eauto|exact H].
  - assert (m multiline r s (fun s' =>
              if Nat.eqb (endIndex s') (endIndex s) then None else k s')
            = Some e \/ k s = Some e) as [Honce|Hk].
    { destruct greedy; apply orElse_Some in H; tauto. }
    + apply IHr in Honce as (s' & Hs' & Hk).
      destruct (Nat.eqb _ _); [discriminate|]. eauto.
    + exists s. split; [apply reach_refl|exact Hk].
  - apply IHr in H as (s' & Hs' & H). eexists. split; [|exact H].
    apply reach_caps. exact Hs'.
Qed.

Lemma search_reach (multiline : bool) (r : regex) (after before : list N)
    (res : MatchResult) (e : mstate) :
  search multiline r before after = Some (res, e) ->
  exists s,
    reach (MState before after []) s /\ reach s e /\
    matched res = consumed s e.
Proof.
  revert before. induction after as [|c after IH]; intros before H;
    cbn [search] in H.
  - destruct (m multiline r (MState before [] []) Some) as [e'|] eqn:Hm;
      [|discriminate].
    simplify_eq. apply m_sound in Hm as (s' & Hs' & Heq). simplify_eq.
    eexists. split; [apply reach_refl|]. split; [exact Hs'|reflexivity].
  - destruct (m multiline r (MState before (c :: after) []) Some)
      as [e'|] eqn:Hm.
    + simplify_eq. apply m_sound in Hm as (s' & Hs' & Heq). simplify_eq.
      eexists. split; [apply reach_refl|]. split; [exact Hs'|reflexivity].
    + apply IH in H as (s & Hs & He & Hres). exists s.
      split; [|split; assumption].
      eapply reach_trans; [|exact Hs]. apply reach_step.
Qed.

(** [matchAll] never runs out of fuel: any larger bound gives the same
    matches. *)
Lemma matchAllFrom_fuel (multiline : bool) (r : regex) :
  forall f1 f2 before after,
    length after < f1 -> length after < f2 ->
    matchAllFrom multiline r f1 before after =
    matchAllFrom multiline r f2 before after.
Proof.
  induction f1 as [|f1 IH]; intros f2 before after H1 H2; [lia|].
  destruct f2 as [|f2]; [lia|]. cbn [matchAllFrom].
  destruct (search multiline r before after) as [[res e]|] eqn:Hs;
    [|reflexivity].
  apply search_reach in Hs as (s & Hs & He & Hres).
  f_equal. rewrite Hres.
  assert (length (rest s) <= length after) as Hle by (apply Hs).
  destruct (consumed s e) as [|x xs] eqn:Hc.
  - destruct (rest e) as [|c cs] eqn:Hr; [reflexivity|].
    assert (length (rest e) <= length (rest s)) by (apply He).
    rewrite Hr in *. simpl in *. apply IH; lia.
  - assert (length (rest e) < length (rest s)).
    { apply reach_progress; [exact He|]. intros Heq.
      unfold consumed in Hc. rewrite Heq, Nat.sub_diag in Hc. discriminate. }
    apply IH; lia.
Qed.

Lemma m_startsWithBol (multiline : bool) (r : regex) (s : mstate) (k : cont) :
  startsWithBol r = true -> atBol multiline s = false ->
  m multiline r s k = None.
Proof.
  revert s k. induction r; intros s k Hr Hs; try discriminate; cbn [m].
  - rewrite Hs. reflexivity.
  - apply IHr1; assumption.
Qed.

Lemma m_endsWithEol (multiline : bool) (r : regex) (s : mstate) (k : cont)
    (e : mstate) :
  endsWithEol r = true -> m multiline r s k = Some e ->
  exists s', reach s s' /\ atEol multiline s' = true /\ k s' = Some e.
Proof.
  revert s k. induction r; intros s k Hr H; try discriminate; cbn [m] in H.
  - destruct (atEol multiline s) eqn:He; [|discriminate].
    exists s. split; [apply reach_refl|]. auto.
  - apply m_sound in H as (s1 & H1 & H).
    apply IHr2 in H as (s2 & H2 & He & H); [|exact Hr].
    exists s2. split; [eapply reach_trans; eauto|]. auto.
Qed.

Lemma search_not_at_Bol (r : regex) (after : list N) :
  startsWithBol r = true ->
  forall (before : list N) (c0 : N),
    singleLine (c0 :: after) ->
    search true r (c0 :: before) after = None.
Proof.
  intros Hr. induction after as [|c after IH]; intros before c0 Hline;
    cbn [search]; (rewrite m_startsWithBol; [|exact Hr|]).
  - reflexivity.
  - simpl. apply Forall_inv in Hline. exact Hline.
  - apply IH. apply Forall_inv_tail in Hline. exact Hline.
  - simpl. apply Forall_inv in Hline. exact Hline.
Qed.

(** A pattern of the shape [/^ ... $/gm] matches a line at most once. *)
Lemma matchAll_anchored_single_line (r : regex) (line : jsstring) :
  startsWithBol r = true -> endsWithEol r = true -> singleLine line ->
  length (matchAll true r line) <= 1.
Proof.
  intros Hbol Heol Hline. unfold matchAll. cbn [matchAllFrom].
  destruct (search true r [] line) as [[res e]|] eqn:Hs; [|simpl; lia].
  assert (m true r (MState [] line []) Some = Some e /\
          matched res = consumed (MState [] line []) e) as [Hm Hres].
  { destruct line as [|c after]; cbn [search] in Hs.
    - destruct (m true r (MState [] [] []) Some); simplify_eq. auto.
    - destruct (m true r (MState [] (c :: after) []) Some); simplify_eq; [auto|].
      rewrite search_not_at_Bol in Hs by assumption. discriminate. }
  apply m_endsWithEol in Hm as (s' & Hreach & He & Hk); [|exact Heol].
  simplify_eq. destruct Hreach as [Hcontent _]. simpl in Hcontent.
  assert (singleLine (rev (prev e)) /\ singleLine (rest e)) as [Hprev Hrest].
  { apply Forall_app. rewrite Hcontent. exact Hline. }
  assert (rest e = []) as Hend.
  { unfold atEol in He. destruct (rest e) as [|c cs]; [reflexivity|].
    apply Forall_inv in Hrest. simpl in He. congruence. }
  rewrite Hend. destruct (matched res) as [|x xs] eqn:Hx; [simpl; lia|].
  cbn [length]. apply le_n_S.
  destruct (length line) as [|fuel]; [simpl; lia|]. cbn [matchAllFrom search].
  destruct (prev e) as [|c cs] eqn:Hp.
  - exfalso. unfold consumed, endIndex in Hres.
    rewrite Hp in Hres. simpl in Hres. discriminate.
  - rewrite m_startsWithBol; [simpl; lia|exact Hbol|].
    simpl. simpl in Hprev. apply Forall_app in Hprev as [_ Hc].
    apply Forall_inv in Hc. exact Hc.
Qed.

Lemma citationPattern_anchored :
  startsWithBol citationPattern = true /\ endsWithEol citationPattern = true.
Proof. split; reflexivity. Qed.

(** Without the [m] flag a pattern that starts with [^] matches at index 0
    only. *)
Lemma search_not_at_start (r : regex) (after : list N) :
  startsWithBol r = true ->
  forall (before : list N) (c0 : N),
    search false r (c0 :: before) after = None.
Proof.
  intros Hr. induction after as [|c after IH]; intros before c0;
    cbn [search]; (rewrite m_startsWithBol; [|exact Hr|reflexivity]).
  - reflexivity.
  - apply IH.
Qed.

Lemma m_Cat (multiline : bool) (r1 r2 : regex) (s : mstate) (k : cont) :
  m multiline (Cat r1 r2) s k =
  m multiline r1 s (fun s' => m multiline r2 s' k).
Proof. reflexivity. Qed.

Lemma m_Chr (multiline : bool) (c : N) (s : mstate) (k : cont) :
  m multiline (Chr c) s k = eat (N.eqb c) s k.
Proof. reflexivity. Qed.

Lemma m_Bol (multiline : bool) (s : mstate) (k : cont) :
  m multiline Bol s k = if atBol multiline s then k s else None.
Proof. reflexivity. Qed.

Lemma m_Eol (multiline : bool) (s : mstate) (k : cont) :
  m multiline Eol s k = if atEol multiline s then k s else None.
Proof. reflexivity. Qed.

Lemma m_Group (multiline : bool) (i : nat) (r : regex) (s : mstate)
    (k : cont) :
  m multiline (Group i r) s k =
  m multiline r s (fun s' =>
    k (MState (prev s') (rest s') ((i, consumed s s') :: caps s'))).
Proof. reflexivity. Qed.

Lemma m_Plus (multiline greedy : bool) (r : regex) (s : mstate) (k : cont) :
  m multiline (Plus greedy r) s k =
  m multiline r s (fun s' =>
    repeat (m multiline r) greedy k (S (length (rest s'))) s').
Proof. reflexivity. Qed.

Lemma m_Dot (multiline : bool) (s : mstate) (k : cont) :
  m multiline Dot s k = eat (fun c => negb (isLineTerminator c)) s k.
Proof. reflexivity. Qed.

(** What a run of [.] iterations consumes: code units other than line
    terminators, moved from [rest] to [prev]. *)
Lemma repeat_Dot_sound (multiline greedy : bool) (k : cont) :
  forall fuel s e,
    repeat (m multiline Dot) greedy k fuel s = Some e ->
    exists eaten,
      singleLine eaten /\
      exists after,
        rest s = eaten ++ after /\
        k (MState (rev eaten ++ prev s) after (caps s)) = Some e.
Proof.
  induction fuel as [|fuel IH]; intros s e H; cbn [repeat] in H.
  - exists []. split; [constructor|]. exists (rest s).
    split; [reflexivity|]. destruct s. exact H.
  - assert (m multiline Dot s (fun s' =>
              if Nat.eqb (endIndex s') (endIndex s) then None
              else repeat (m multiline Dot) greedy k fuel s') = Some e \/
            k s = Some e) as [Hagain|Hk].
    { destruct greedy; apply orElse_Some in H; tauto. }
    + cbn [m] in Hagain. unfold eat in Hagain.
      destruct (rest s) as [|c cs] eqn:Hr; [discriminate|].
      destruct (isLineTerminator c) eqn:Hc; cbn [negb] in Hagain;
        [discriminate|].
      destruct (Nat.eqb (endIndex _) (endIndex s)); [discriminate|].
      apply IH in Hagain as (eaten & Hline & after & Hrest & Hk).
      cbn [prev rest caps] in Hrest, Hk. exists (c :: eaten).
      split; [constructor; assumption|]. exists after.
      split; [simpl; congruence|]. simpl. rewrite <- app_assoc. exact Hk.
    + exists []. split; [constructor|]. exists (rest s).
      split; [reflexivity|]. destruct s. exact Hk.
Qed.

(** A greedy run of [.] iterations over a line takes all of it when the
    continuation accepts there. *)
Lemma repeat_Dot_all (multiline : bool) (k : cont) (e : mstate)
    (cs : list (nat * jsstring)) :
  forall line before fuel,
    singleLine line -> length line < fuel ->
    k (MState (rev line ++ before) [] cs) = Some e ->
    repeat (m multiline Dot) true k fuel (MState before line cs) = Some e.
Proof.
  induction line as [|c line IH]; intros before fuel Hline Hfuel Hk;
    (destruct fuel as [|fuel]; [simpl in Hfuel; lia|]); cbn [repeat];
    rewrite m_Dot.
  - unfold eat. simpl. exact Hk.
  - unfold eat. cbn [rest prev caps].
    pose proof (Forall_inv Hline) as Hc. simpl in Hc. rewrite Hc.
    cbn [negb]. unfold endIndex at 1 2. cbn [prev length].
    replace (Nat.eqb (S (length before)) (length before)) with false
      by (symmetry; apply Nat.eqb_neq; lia).
    rewrite (IH (c :: before) fuel).
    + reflexivity.
    + apply Forall_inv_tail in Hline. exact Hline.
    + simpl in Hfuel. lia.
    + simpl in Hk. rewrite <- app_assoc in Hk. exact Hk.
Qed.

Lemma consumed_to_end (before line p' : list N)
    (cs cs' : list (nat * jsstring)) :
  length p' = length line + length before ->
  consumed (MState before line cs) (MState p' [] cs') = line.
Proof.
  intros H. unfold consumed, endIndex. cbn [prev rest]. rewrite H.
  replace (length line + length before - length before) with (length line)
    by lia.
  apply firstn_all.
Qed.

(** ** Citation extraction *)

Lemma matchAll_smithLine :
  matchAll true citationPattern smithLine =
  [Match 0 smithLine [(1, js "smith2020")]].
Proof. vm_compute. reflexivity. Qed.

Lemma matchAll_agreeLine :
  matchAll true citationPattern agreeLine =
  [Match 0 agreeLine [(1, js "b2021")]].
Proof. vm_compute. reflexivity. Qed.

(** With a library loaded, [getCitations] is the image of the matches. *)
Lemma getCitations_loaded (this : CitationPlugin) (lib : Library)
    (content : jsstring) :
  library this = Some lib ->
  getCitations this content =
  Some (map (citationOfMatch lib) (matchAll true citationPattern content)).
Proof. intros Hlib. unfold getCitations. rewrite Hlib. reflexivity. Qed.

(** A name that [Object.prototype] does not define reads as the object's
    own entry, or as [undefined]. *)
Lemma Get_own_or_undefined (O : gmap jsstring Entry) (P : jsstring) :
  P ∉ ObjectPrototype_properties ->
  Get O P =
  match O !! P with
  | Some entry => Own entry
  | None => Undefined
  end.
Proof.
  intros HP. unfold Get. destruct (O !! P); [reflexivity|].
  destruct (decide (P ∈ ObjectPrototype_properties)); [contradiction|].
  reflexivity.
Qed.

(** C5: on the text "See [[@smith2020]] for details." and any loaded
    library, [getCitations] returns exactly one occurrence; the citekey
    extracted for it is smith2020 (the occurrence carries the library's
    entry for that key) and its source line is the whole input. *)
Theorem getCitations_smith2020 (this : CitationPlugin) (lib : Library) :
  library this = Some lib ->
  getCitations this smithLine =
    Some [(match entries lib !! js "smith2020" with
           | Some entry => Own entry
           | None => Undefined
           end, smithLine)] /\
  map (fun mr => capture 1 (captures mr))
      (matchAll true citationPattern smithLine) = [Some (js "smith2020")].
Proof.
  intros Hlib. rewrite (getCitations_loaded this lib _ Hlib).
  rewrite matchAll_smithLine. split; [|reflexivity].
  cbn [map]. unfold citationOfMatch.
  cbn [captures capture matched Nat.eqb ToString].
  rewrite Get_own_or_undefined; [reflexivity|].
  apply (bool_decide_unpack _). vm_compute. exact I.
Qed.

Lemma getCitations_smith2020_witness :
  getCitations samplePlugin smithLine =
    Some [(match entries sampleLibrary !! js "smith2020" with
           | Some entry => Own entry
           | None => Undefined
           end, smithLine)] /\
  map (fun mr => capture 1 (captures mr))
      (matchAll true citationPattern smithLine) = [Some (js "smith2020")].
Proof. apply (getCitations_smith2020 samplePlugin sampleLibrary). reflexivity. Defined.

(** C4 (the code at the failing input): on the line
    "[[@a2020]] and [[@b2021]] agree." [getCitations] returns one
    occurrence only, the one for b2021: the reference to a2020 is swallowed
    by the leading [^.*] of the pattern. The same holds of every line: a
    text without line terminators never yields more than one occurrence,
    however many references it holds. *)
Theorem getCitations_one_occurrence_per_line
    (lib : Library) (csl : option Library) (b n : bool)
    (s : CitationsPluginSettings) :
  getCitations (mkPlugin s (Some lib) csl b n) agreeLine =
    Some [(match entries lib !! js "b2021" with
           | Some entry => Own entry
           | None => Undefined
           end, agreeLine)] /\
  forall line,
    singleLine line ->
    exists occurrences,
      getCitations (mkPlugin s (Some lib) csl b n) line = Some occurrences /\
      length occurrences <= 1.
Proof.
  split.
  - rewrite (getCitations_loaded _ lib); [|reflexivity].
    rewrite matchAll_agreeLine. cbn [map]. unfold citationOfMatch.
    cbn [captures capture matched Nat.eqb ToString].
    rewrite Get_own_or_undefined; [reflexivity|].
    apply (bool_decide_unpack _). vm_compute. exact I.
  - intros line Hline. eexists.
    split; [apply (getCitations_loaded _ lib); reflexivity|].
    rewrite length_map.
    apply matchAll_anchored_single_line;
      [apply citationPattern_anchored|apply citationPattern_anchored|exact Hline].
Qed.

Lemma getCitations_one_occurrence_per_line_witness :
  exists occurrences,
    getCitations samplePlugin agreeLine = Some occurrences /\
    length occurrences <= 1.
Proof.
  apply (proj2 (getCitations_one_occurrence_per_line
                  sampleLibrary (Some sampleLibrary) false false
                  sampleSettings) agreeLine).
  unfold singleLine. apply (bool_decide_unpack _). vm_compute. exact I.
Defined.

(** C7: without a library [getCitations] returns [null] for every text;
    with a library it returns an array for every text, the empty array when
    nothing matches; so the two results always differ. *)
Theorem getCitations_null_is_not_empty (this : CitationPlugin)
    (content : jsstring) :
  library this = None ->
  getCitations this content = None /\
  forall (that : CitationPlugin) (lib : Library) (content' : jsstring),
    library that = Some lib ->
    (exists occurrences, getCitations that content' = Some occurrences) /\
    (matchAll true citationPattern content' = [] ->
       getCitations that content' = Some []) /\
    getCitations that content' <> getCitations this content.
Proof.
  intros Hnone. unfold getCitations at 1. rewrite Hnone. split; [reflexivity|].
  intros that lib content' Hlib.
  rewrite (getCitations_loaded that lib content' Hlib).
  split; [eexists; reflexivity|]. split.
  - intros ->. reflexivity.
  - unfold getCitations. rewrite Hnone. discriminate.
Qed.

Lemma getCitations_null_is_not_empty_witness :
  getCitations (setLibrary None samplePlugin) smithLine = None /\
  forall (that : CitationPlugin) (lib : Library) (content' : jsstring),
    library that = Some lib ->
    (exists occurrences, getCitations that content' = Some occurrences) /\
    (matchAll true citationPattern content' = [] ->
       getCitations that content' = Some []) /\
    getCitations that content' <>
      getCitations (setLibrary None samplePlugin) smithLine.
Proof.
  apply (getCitations_null_is_not_empty (setLibrary None samplePlugin)).
  reflexivity.
Defined.

(** ** Loading the library *)

Ltac step_inv H :=
  unfold step, loadLibrary_call, loadLibrary_onRead, loadLibrary_onEntries,
    catchError, catchBlocked, WorkerManager_post, WorkerManager_settle in H;
  repeat (case_match; simplify_eq); simpl in *.

Lemma step_settings (w w' : World) (ev : Event) :
  step w ev = Some w' -> settings (plugin w') = settings (plugin w).
Proof.
  intros H. destruct ev; step_inv H; try reflexivity.
Qed.

Lemma step_library (w w' : World) (ev : Event) :
  step w ev = Some w' ->
  library (plugin w') = library (plugin w) \/
  library (plugin w') = None \/
  exists i batch lib,
    ev = WorkerResolved i batch /\
    buildLibrary (citationExportFormat (settings (plugin w))) batch = Some lib /\
    library (plugin w') = Some lib.
Proof.
  intros H. destruct ev; step_inv H; eauto 10.
Qed.

Lemma run_library (evs : list Event) : forall (w w' : World),
  run w evs = Some w' ->
  library (plugin w') = library (plugin w) \/
  library (plugin w') = None \/
  exists i batch lib,
    In (WorkerResolved i batch) evs /\
    buildLibrary (citationExportFormat (settings (plugin w))) batch = Some lib /\
    library (plugin w') = Some lib.
Proof.
  induction evs as [|ev evs IH]; intros w w' Hrun; simpl in Hrun.
  - left. congruence.
  - destruct (step w ev) as [w1|] eqn:Hstep; [|discriminate].
    pose proof (step_settings _ _ _ Hstep) as Hset.
    destruct (IH _ _ Hrun) as [Heq | [Hnone | (i & batch & lib & Hin & Hb & Hl)]].
    + rewrite Heq.
      destruct (step_library _ _ _ Hstep)
        as [H | [H | (i & batch & lib & -> & Hb & Hl)]]; auto.
      right; right. exists i, batch, lib. simpl. auto.
    + auto.
    + right; right. exists i, batch, lib. rewrite <- Hset. simpl. auto.
Qed.

Lemma call_unloads (w w1 : World) :
  citationExportPath (settings (plugin w)) <> [] ->
  step w Call = Some w1 ->
  library (plugin w1) = None /\
  calls w1 = calls w ++ [AwaitingRead] /\
  settings (plugin w1) = settings (plugin w).
Proof.
  intros Hpath H. step_inv H; try congruence; auto.
Qed.

Lemma consistent_initial s : consistent (initialWorld s).
Proof.
  split; simpl.
  - split; [discriminate|]. intros [i Hi]. rewrite lookup_nil in Hi. discriminate.
  - intros i j Hi. rewrite lookup_nil in Hi. discriminate.
Qed.

Lemma lookup_setCall (l : list CallState) (i j : nat) (c c0 : CallState) :
  l !! i = Some c0 ->
  setCall i c l !! j = if decide (i = j) then Some c else l !! j.
Proof.
  intros Hi. unfold setCall. destruct (decide (i = j)) as [->|Hne].
  - apply list_lookup_insert_eq. eapply lookup_lt_Some; eauto.
  - apply list_lookup_insert_ne; auto.
Qed.

Lemma lookup_snoc_AwaitingWorker (l : list CallState) (c : CallState) (j : nat) :
  c <> AwaitingWorker ->
  (l ++ [c]) !! j = Some AwaitingWorker <-> l !! j = Some AwaitingWorker.
Proof.
  intros Hc. split; intros H.
  - destruct (decide (j < length l)) as [Hlt|Hge].
    + rewrite lookup_app_l in H; auto.
    + rewrite lookup_app_r in H by lia.
      destruct (j - length l); simpl in H; [congruence|].
      rewrite lookup_nil in H. discriminate.
  - apply lookup_app_l_Some. exact H.
Qed.

Lemma step_consistent (w w' : World) (ev : Event) :
  consistent w -> step w ev = Some w' -> consistent w'.
Proof.
  intros [Hb Hu] H. destruct ev.
  - assert (exists c, c <> AwaitingWorker /\ calls w' = calls w ++ [c] /\
              loadWorker_blocked (plugin w') = loadWorker_blocked (plugin w))
      as (c & Hc & Hcalls & Hbl).
    { step_inv H; eexists; (split; [|split; reflexivity]); discriminate. }
    split.
    + rewrite Hbl, Hb, Hcalls. split; intros [j Hj]; exists j;
        apply (lookup_snoc_AwaitingWorker _ _ _ Hc); exact Hj.
    + intros a b Ha Hb'. rewrite Hcalls in Ha, Hb'.
      apply (proj1 (lookup_snoc_AwaitingWorker _ _ _ Hc)) in Ha.
      apply (proj1 (lookup_snoc_AwaitingWorker _ _ _ Hc)) in Hb'. eauto.
  - simpl in H. destruct (calls w !! i) as [[]|] eqn:Hi; try discriminate.
    unfold loadLibrary_onRead, WorkerManager_post, catchBlocked in H.
    simpl in H.
    destruct (loadWorker_blocked (plugin w)) eqn:Hblk; simplify_eq; simpl.
    + split; simpl.
      * rewrite Hblk. split; [intros _|reflexivity].
        destruct Hb as [Hb _]. destruct (Hb eq_refl) as [j Hj].
        exists j. rewrite (lookup_setCall _ _ _ _ _ Hi).
        case_decide; [congruence|exact Hj].
      * intros a b. rewrite !(lookup_setCall _ _ _ _ _ Hi).
        repeat case_decide; try discriminate. apply Hu.
    + assert (forall j, calls w !! j <> Some AwaitingWorker) as Hno.
      { intros j Hj. destruct Hb as [_ Hb]. 
        assert (false = true) by (apply Hb; eauto). discriminate. }
      split; simpl.
      * split; [intros _|reflexivity]. exists i.
        rewrite (lookup_setCall _ _ _ _ _ Hi). case_decide; congruence.
      * intros a b. rewrite !(lookup_setCall _ _ _ _ _ Hi).
        repeat case_decide; try congruence; intros; exfalso; eapply Hno; eauto.
  - simpl in H. destruct (calls w !! i) as [[]|] eqn:Hi; try discriminate.
    simplify_eq. split; simpl.
    + rewrite Hb. split; intros [j Hj]; exists j.
      * rewrite (lookup_setCall _ _ _ _ _ Hi). case_decide; congruence.
      * rewrite (lookup_setCall _ _ _ _ _ Hi) in Hj.
        case_decide; congruence.
    + intros a b. rewrite !(lookup_setCall _ _ _ _ _ Hi).
      repeat case_decide; try discriminate. apply Hu.
  - simpl in H. destruct (calls w !! i) as [[]|] eqn:Hi; try discriminate.
    assert (exists v, calls w' = setCall i (Resolved v) (calls w) /\
              loadWorker_blocked (plugin w') = false) as (v & Hcalls & Hbl).
    { unfold loadLibrary_onEntries, catchError in H.
      repeat (case_match; simplify_eq); simpl; eauto. }
    unfold consistent. rewrite Hcalls, Hbl. clear H Hcalls Hbl. split.
    + split; [discriminate|]. intros [j Hj].
      rewrite (lookup_setCall _ _ _ _ _ Hi) in Hj.
      case_decide; [discriminate|]. exfalso. 
      assert (i = j) by (eapply Hu; eauto). congruence.
    + intros a b. rewrite !(lookup_setCall _ _ _ _ _ Hi).
      repeat case_decide; try discriminate. apply Hu.
  - simpl in H. destruct (calls w !! i) as [[]|] eqn:Hi; try discriminate.
    simplify_eq. simpl. split; simpl.
    + split; [discriminate|]. intros [j Hj].
      rewrite (lookup_setCall _ _ _ _ _ Hi) in Hj.
      case_decide; [discriminate|]. exfalso. 
      assert (i = j) by (eapply Hu; eauto). congruence.
    + intros a b. rewrite !(lookup_setCall _ _ _ _ _ Hi).
      repeat case_decide; try discriminate. apply Hu.
Qed.

Lemma run_consistent (evs : list Event) : forall (w w' : World),
  consistent w -> run w evs = Some w' -> consistent w'.
Proof.
  induction evs as [|ev evs IH]; intros w w' Hw Hrun; simpl in Hrun.
  - congruence.
  - destruct (step w ev) as [w1|] eqn:Hstep; [|discriminate].
    eapply IH; [|exact Hrun]. eapply step_consistent; eauto.
Qed.

Lemma loadedWorld_reached :
  run (initialWorld sampleSettings)
    [Call; ReadResolved 0 (js "[]"); WorkerResolved 0 [sampleRecord]]
  = Some loadedWorld.
Proof. reflexivity. Qed.

(** C1 (as the code has it): a reload with the export path set starts by
    unloading the library, so from that moment a reader of [this.library]
    finds it absent, until a worker result is turned into a library; what it
    then finds is a library built whole from one batch the worker delivered
    after the reload began. The store loaded before the reload is not
    observable during it, and no partly built store ever is. *)
Theorem reload_observations (w0 w1 w : World) (evs : list Event) :
  citationExportPath (settings (plugin w0)) <> [] ->
  step w0 Call = Some w1 ->
  run w1 evs = Some w ->
  library (plugin w1) = None /\
  (library (plugin w) = None \/
   exists i batch lib,
     In (WorkerResolved i batch) evs /\
     buildLibrary (citationExportFormat (settings (plugin w0))) batch
       = Some lib /\
     library (plugin w) = Some lib).
Proof.
  intros Hpath Hcall Hrun.
  destruct (call_unloads _ _ Hpath Hcall) as (Hnone & _ & Hset).
  split; [exact Hnone|].
  destruct (run_library _ _ _ Hrun) as [H | [H | H]].
  - left. congruence.
  - left. exact H.
  - right. rewrite <- Hset. exact H.
Qed.

Lemma reload_observations_witness :
  library (plugin reloadingWorld) = None /\
  (library (plugin reloadedWorld) = None \/
   exists i batch lib,
     In (WorkerResolved i batch)
        [ReadResolved 1 (js "[]"); WorkerResolved 1 [otherRecord]] /\
     buildLibrary (citationExportFormat (settings (plugin loadedWorld))) batch
       = Some lib /\
     library (plugin reloadedWorld) = Some lib).
Proof.
  apply (reload_observations loadedWorld reloadingWorld reloadedWorld
           [ReadResolved 1 (js "[]"); WorkerResolved 1 [otherRecord]]).
  - vm_compute. discriminate.
  - reflexivity.
  - reflexivity.
Defined.

(** C1 (counterexample): after one successful load a reader finds the
    library and [getCitations] resolves smith2020; once a reload has begun
    and is still in flight the reader finds no library at all and
    [getCitations] returns [null]: neither the store from before the reload
    nor one from after it. *)
Lemma reload_unloads_loaded_library :
  exists w0 w1 lib0,
    run (initialWorld sampleSettings)
      [Call; ReadResolved 0 (js "[]"); WorkerResolved 0 [sampleRecord]]
      = Some w0 /\
    library (plugin w0) = Some lib0 /\
    getCitations (plugin w0) smithLine =
      Some [(Own (EntryCSLAdapter sampleRecord), smithLine)] /\
    step w0 Call = Some w1 /\
    inFlight w1 1 /\
    library (plugin w1) = None /\
    getCitations (plugin w1) smithLine = None.
Proof.
  exists loadedWorld, reloadingWorld, sampleLibrary.
  repeat split; try reflexivity. left. reflexivity.
Qed.

Lemma lookup_snoc_length (l : list CallState) (c : CallState) :
  (l ++ [c]) !! length l = Some c.
Proof. rewrite lookup_app_r by lia. rewrite Nat.sub_diag. reflexivity. Qed.

(** C2 (as the code has it): the handler of a failed file read or a
    failed parse does not touch [this.library]; since [loadLibrary] unloaded
    the library when the reload began, after a failed reload that no other
    call overlaps the library is absent, whether or not a store had been
    loaded before. The call resolves with [null] and the notice is shown. *)
Theorem failed_reload_leaves_library_absent (w0 : World) (value : jsstring) :
  citationExportPath (settings (plugin w0)) <> [] ->
  (exists w,
     run w0 [Call; ReadRejected (length (calls w0))] = Some w /\
     calls w !! length (calls w0) = Some (Resolved ResNull) /\
     loadErrorNotifier_shown (plugin w) = true /\
     library (plugin w) = None) /\
  (loadWorker_blocked (plugin w0) = false ->
   exists w,
     run w0 [Call; ReadResolved (length (calls w0)) value;
             WorkerRejected (length (calls w0))] = Some w /\
     calls w !! length (calls w0) = Some (Resolved ResNull) /\
     loadErrorNotifier_shown (plugin w) = true /\
     library (plugin w) = None) /\
  (forall w w' i,
     step w (ReadRejected i) = Some w' \/ step w (WorkerRejected i) = Some w' ->
     library (plugin w') = library (plugin w)).
Proof.
  intros Hpath.
  destruct (citationExportPath (settings (plugin w0))) as [|c path] eqn:Hp;
    [congruence|].
  assert (forall x, (calls w0 ++ [x]) !! length (calls w0) = Some x) as Hlast
    by (intros; apply lookup_snoc_length).
  assert (forall x y, <[length (calls w0) := y]> (calls w0 ++ [x]) !! length (calls w0) = Some y) as Hins.
  { intros. apply list_lookup_insert_eq. rewrite length_app. simpl. lia. }
  split; [|split].
  - eexists. simpl. unfold loadLibrary_call. rewrite Hp. simpl.
    rewrite Hlast. simpl. split; [reflexivity|]. simpl. unfold setCall.
    rewrite Hins. auto.
  - intros Hidle. eexists. simpl. unfold loadLibrary_call. rewrite Hp. simpl.
    rewrite Hlast. unfold loadLibrary_onRead, WorkerManager_post. simpl.
    rewrite Hidle. simpl. unfold setCall. rewrite Hins. simpl.
    split; [reflexivity|]. simpl. rewrite list_insert_insert_eq, Hins. auto.
  - intros w w' i [H|H]; step_inv H; reflexivity.
Qed.

Lemma failed_reload_leaves_library_absent_witness :
  (exists w,
     run loadedWorld [Call; ReadRejected (length (calls loadedWorld))]
       = Some w /\
     calls w !! length (calls loadedWorld) = Some (Resolved ResNull) /\
     loadErrorNotifier_shown (plugin w) = true /\
     library (plugin w) = None) /\
  (loadWorker_blocked (plugin loadedWorld) = false ->
   exists w,
     run loadedWorld
       [Call; ReadResolved (length (calls loadedWorld)) (js "[]");
        WorkerRejected (length (calls loadedWorld))] = Some w /\
     calls w !! length (calls loadedWorld) = Some (Resolved ResNull) /\
     loadErrorNotifier_shown (plugin w) = true /\
     library (plugin w) = None) /\
  (forall w w' i,
     step w (ReadRejected i) = Some w' \/ step w (WorkerRejected i) = Some w' ->
     library (plugin w') = library (plugin w)).
Proof.
  apply (failed_reload_leaves_library_absent loadedWorld (js "[]")).
  vm_compute. discriminate.
Defined.

(** C2 (counterexample): a library is loaded, then a reload whose file read
    fails; when that call has resolved the library is absent, not the store
    it held before the reload began. *)
Lemma failed_reload_drops_loaded_library :
  exists w0 w lib0,
    run (initialWorld sampleSettings)
      [Call; ReadResolved 0 (js "[]"); WorkerResolved 0 [sampleRecord]]
      = Some w0 /\
    library (plugin w0) = Some lib0 /\
    run w0 [Call; ReadRejected 1] = Some w /\
    calls w !! 1 = Some (Resolved ResNull) /\
    library (plugin w) = None /\
    library (plugin w) <> library (plugin w0).
Proof.
  exists loadedWorld.
  exists (mkWorld (setNotifier true (setLibrary None (plugin loadedWorld)))
            [Resolved (ResLibrary sampleLibrary); Resolved ResNull]).
  exists sampleLibrary.
  repeat split; try reflexivity. discriminate.
Qed.

(** What a call on the worker resolves to depends on the export format and
    on the batch alone. *)
Lemma worker_outcome (w w' : World) (i : nat) :
  (forall batch,
     step w (WorkerResolved i batch) = Some w' ->
     match buildLibrary (citationExportFormat (settings (plugin w))) batch with
     | Some lib =>
         calls w' !! i = Some (Resolved (ResLibrary lib)) /\
         library (plugin w') = Some lib
     | None => calls w' !! i = Some (Resolved ResNull)
     end) /\
  (step w (WorkerRejected i) = Some w' ->
   calls w' !! i = Some (Resolved ResNull)).
Proof.
  split; [intros batch H|intros H]; simpl in H;
    destruct (calls w !! i) as [[]|] eqn:Hi; try discriminate;
    assert (i < length (calls w)) as Hlt by (eapply lookup_lt_Some; eauto).
  - unfold loadLibrary_onEntries, WorkerManager_settle, catchError in H.
    simpl in H.
    destruct (buildLibrary (citationExportFormat (settings (plugin w))) batch);
      simplify_eq; simpl; unfold setCall;
      rewrite list_lookup_insert_eq by exact Hlt; auto.
  - simplify_eq. simpl. unfold setCall.
    rewrite list_lookup_insert_eq by exact Hlt. reflexivity.
Qed.

(** C3 (as the code has it): when the file read of a second call
    completes while the parse job of the first is still on the worker, the
    second call's [post] fails at once with the Blocked signal and
    [loadLibrary] resolves silently: the notice is not shown, the library
    and the channel are left as they are, every other call stands as it
    stood. What the first call then resolves to, a library or [null], is
    what it resolves to in any world [w0] of the same settings where it is
    on the worker, so also in one where the second call was never made; on
    success the library stored is the same too. *)
Theorem blocked_reload_leaves_first_unaffected
    (w1 w2 : World) (i j : nat) (value : jsstring) :
  consistent w1 ->
  calls w1 !! i = Some AwaitingWorker ->
  step w1 (ReadResolved j value) = Some w2 ->
  calls w2 !! j = Some (Resolved ResUndefined) /\
  loadErrorNotifier_shown (plugin w2) = false /\
  library (plugin w2) = library (plugin w1) /\
  loadWorker_blocked (plugin w2) = true /\
  (forall k, k <> j -> calls w2 !! k = calls w1 !! k) /\
  forall w0,
    settings (plugin w0) = settings (plugin w1) ->
    calls w0 !! i = Some AwaitingWorker ->
    (forall batch w0',
       step w0 (WorkerResolved i batch) = Some w0' ->
       exists w2',
         step w2 (WorkerResolved i batch) = Some w2' /\
         calls w2' !! i = calls w0' !! i /\
         forall lib, calls w0' !! i = Some (Resolved (ResLibrary lib)) ->
           library (plugin w0') = Some lib /\
           library (plugin w2') = Some lib) /\
    (forall w0',
       step w0 (WorkerRejected i) = Some w0' ->
       exists w2',
         step w2 (WorkerRejected i) = Some w2' /\
         calls w2' !! i = calls w0' !! i).
Proof.
  intros [Hb Hu] Hi Hread.
  assert (loadWorker_blocked (plugin w1) = true) as Hblk by (apply Hb; eauto).
  simpl in Hread.
  destruct (calls w1 !! j) as [[]|] eqn:Hj; try discriminate.
  assert (j < length (calls w1)) as Hlt by (eapply lookup_lt_Some; eauto).
  assert (i <> j) as Hne by congruence.
  unfold loadLibrary_onRead, WorkerManager_post in Hread. simpl in Hread.
  rewrite Hblk in Hread. simpl in Hread. simplify_eq.
  assert (forall k, k <> j ->
            setCall j (Resolved ResUndefined) (calls w1) !! k = calls w1 !! k)
    as Hother.
  { intros k Hk. unfold setCall. apply list_lookup_insert_ne. congruence. }
  remember (mkWorld (setNotifier false (plugin w1))
              (setCall j (Resolved ResUndefined) (calls w1))) as w2 eqn:Hw2.
  assert (calls w2 !! i = Some AwaitingWorker) as H2
    by (rewrite Hw2; simpl; rewrite Hother by exact Hne; exact Hi).
  split.
  { rewrite Hw2. simpl. unfold setCall. apply list_lookup_insert_eq.
    exact Hlt. }
  split; [rewrite Hw2; reflexivity|]. split; [rewrite Hw2; reflexivity|].
  split; [rewrite Hw2; exact Hblk|].
  split; [rewrite Hw2; exact Hother|].
  intros w0 Hset H0.
  assert (settings (plugin w2) = settings (plugin w0)) as Hset2
    by (rewrite Hw2; simpl; congruence).
  clear Hw2.
  split.
  - intros batch w0' Hstep.
    destruct (step w2 (WorkerResolved i batch)) as [w2'|] eqn:Hstep2.
    2:{ simpl in Hstep2. rewrite H2 in Hstep2.
        destruct (loadLibrary_onEntries _ _). discriminate. }
    exists w2'. split; [reflexivity|].
    pose proof (proj1 (worker_outcome w0 w0' i) batch Hstep) as Hout0.
    pose proof (proj1 (worker_outcome w2 w2' i) batch Hstep2) as Hout2.
    rewrite Hset2 in Hout2.
    destruct (buildLibrary (citationExportFormat (settings (plugin w0))) batch)
      as [lib|].
    + destruct Hout0 as [Hc0 Hl0]. destruct Hout2 as [Hc2 Hl2].
      split; [congruence|]. intros lib' Heq. split; congruence.
    + split; [congruence|]. intros lib' Heq. congruence.
  - intros w0' Hstep.
    destruct (step w2 (WorkerRejected i)) as [w2'|] eqn:Hstep2.
    2:{ simpl in Hstep2. rewrite H2 in Hstep2. discriminate. }
    exists w2'. split; [reflexivity|].
    rewrite (proj2 (worker_outcome w0 w0' i) Hstep).
    rewrite (proj2 (worker_outcome w2 w2' i) Hstep2). reflexivity.
Qed.

Lemma blockedWorld_consistent : consistent blockedWorld.
Proof.
  apply (run_consistent [Call; ReadResolved 0 (js "[]"); Call]
           (initialWorld sampleSettings) blockedWorld
           (consistent_initial sampleSettings)).
  reflexivity.
Qed.

Lemma blocked_reload_leaves_first_unaffected_witness :
  calls (mkWorld (plugin blockedWorld) [AwaitingWorker; Resolved ResUndefined])
    !! 1 = Some (Resolved ResUndefined) /\
  loadErrorNotifier_shown (plugin blockedWorld) = false /\
  library (plugin blockedWorld) = library (plugin blockedWorld) /\
  loadWorker_blocked (plugin blockedWorld) = true /\
  (forall k, k <> 1 ->
     calls (mkWorld (plugin blockedWorld)
              [AwaitingWorker; Resolved ResUndefined]) !! k
     = calls blockedWorld !! k) /\
  forall w0,
    settings (plugin w0) = settings (plugin blockedWorld) ->
    calls w0 !! 0 = Some AwaitingWorker ->
    (forall batch w0',
       step w0 (WorkerResolved 0 batch) = Some w0' ->
       exists w2',
         step (mkWorld (plugin blockedWorld)
                 [AwaitingWorker; Resolved ResUndefined])
              (WorkerResolved 0 batch) = Some w2' /\
         calls w2' !! 0 = calls w0' !! 0 /\
         forall lib, calls w0' !! 0 = Some (Resolved (ResLibrary lib)) ->
           library (plugin w0') = Some lib /\
           library (plugin w2') = Some lib) /\
    (forall w0',
       step w0 (WorkerRejected 0) = Some w0' ->
       exists w2',
         step (mkWorld (plugin blockedWorld)
                 [AwaitingWorker; Resolved ResUndefined])
              (WorkerRejected 0) = Some w2' /\
         calls w2' !! 0 = calls w0' !! 0).
Proof.
  apply (blocked_reload_leaves_first_unaffected blockedWorld
           (mkWorld (plugin blockedWorld)
              [AwaitingWorker; Resolved ResUndefined])
           0 1 (js "[]")).
  - exact blockedWorld_consistent.
  - reflexivity.
  - reflexivity.
Defined.

(** C3 (counterexample): a second call issued while the first is on the
    worker is not blocked when the first finishes before the second's file
    read does: the second is parsed and resolves with a library of its own.
    And of two calls whose file reads complete in the other order, it is
    the first that is blocked and resolves with [undefined]. *)
Lemma overlapping_reload_not_blocked :
  exists wa w w',
    run (initialWorld sampleSettings) [Call; ReadResolved 0 (js "[]")]
      = Some wa /\
    calls wa !! 0 = Some AwaitingWorker /\
    run wa [Call; WorkerResolved 0 [sampleRecord];
            ReadResolved 1 (js "[]"); WorkerResolved 1 [otherRecord]]
      = Some w /\
    calls w !! 1 =
      Some (Resolved (ResLibrary
        (mkLibrary {[ js "jones2021" := EntryCSLAdapter otherRecord ]}))) /\
    run (initialWorld sampleSettings)
      [Call; Call; ReadResolved 1 (js "[]"); ReadResolved 0 (js "[]")]
      = Some w' /\
    calls w' !! 0 = Some (Resolved ResUndefined) /\
    calls w' !! 1 = Some AwaitingWorker.
Proof.
  eexists. eexists. eexists.
  split; [reflexivity|]. split; [reflexivity|].
  split; [reflexivity|]. split; [reflexivity|].
  split; [reflexivity|]. split; reflexivity.
Qed.

(** ** Building the library *)

Lemma fold_insert_spec {V : Type} (pairs : list (jsstring * V)) :
  forall (m0 : gmap jsstring V),
  NoDup (pairs.*1) ->
  (forall k, k ∈ pairs.*1 -> m0 !! k = None) ->
  size (fold_left (fun o kv => <[kv.1 := kv.2]> o) pairs m0)
    = size m0 + length pairs /\
  forall k v,
    fold_left (fun o kv => <[kv.1 := kv.2]> o) pairs m0 !! k = Some v <->
    (k, v) ∈ pairs \/ m0 !! k = Some v.
Proof.
  induction pairs as [|[k0 v0] ps IH]; intros m0 Hnd Hfresh; simpl.
  - split; [lia|]. intros k v. split; [auto|]. intros [H|H]; [|exact H].
    inversion H.
  - simpl in Hnd. apply NoDup_cons in Hnd as [Hk0 Hnd].
    assert (m0 !! k0 = None) as Hm0 by (apply Hfresh; simpl; left).
    destruct (IH (<[k0:=v0]> m0) Hnd) as [Hsize Hlook].
    { intros k Hk. rewrite lookup_insert_ne.
      - apply Hfresh. simpl. right. exact Hk.
      - intros ->. contradiction. }
    split.
    + rewrite Hsize, map_size_insert_None by exact Hm0. lia.
    + intros k v. rewrite Hlook. rewrite elem_of_cons.
      destruct (decide (k0 = k)) as [->|Hne].
      * rewrite lookup_insert_eq, Hm0. split.
        -- intros [H|H]; [auto|]. left. left. congruence.
        -- intros [[H|H]|H]; [right; congruence|auto|discriminate].
      * rewrite lookup_insert_ne by exact Hne. split.
        -- intros [H|H]; auto.
        -- intros [[H|H]|H]; [congruence|auto|auto].
Qed.

Lemma selectAdapter_biblatex :
  selectAdapter (js "biblatex") = Some (EntryBibLaTeXAdapter, js "key").
Proof. reflexivity. Qed.

Lemma selectAdapter_csl :
  selectAdapter (js "csl-json") = Some (EntryCSLAdapter, js "id").
Proof. reflexivity. Qed.

Lemma NoDup_keys (batch : list EntryData) (idKey : jsstring) :
  (forall e, e ∈ batch -> is_Some (e !! idKey)) ->
  NoDup (map (fun e => e !! idKey) batch) ->
  NoDup (map (fun e => ToString (e !! idKey)) batch).
Proof.
  induction batch as [|e batch IH]; intros Hwf Hnd; simpl; [constructor|].
  simpl in Hnd. apply NoDup_cons in Hnd as [Hnotin Hnd].
  apply NoDup_cons. split.
  - intros Hin. apply Hnotin. apply list_elem_of_fmap in Hin as (e' & Heq & He').
    apply list_elem_of_fmap. exists e'. split; [|exact He'].
    destruct (Hwf e) as [k Hk]; [left|].
    destruct (Hwf e') as [k' Hk']; [right; exact He'|].
    rewrite Hk, Hk' in *. simpl in Heq. congruence.
  - apply IH; [|exact Hnd]. intros e' He'. apply Hwf. right. exact He'.
Qed.

(** C9: for the format biblatex (citekey field [key]) or csl-json (citekey
    field [id]) and a batch whose records all have that field, with
    pairwise distinct values, the second [.then] of [loadLibrary] stores a
    library whose size is the number of records, which maps the citekey of
    every record to the adapter built from that record, and which holds
    nothing else. *)
Theorem library_has_one_entry_per_record
    (this : CitationPlugin) (batch : list EntryData)
    (adapter : EntryData -> Entry) (idKey : jsstring) :
  (citationExportFormat (settings this) = js "biblatex" /\
     adapter = EntryBibLaTeXAdapter /\ idKey = js "key") \/
  (citationExportFormat (settings this) = js "csl-json" /\
     adapter = EntryCSLAdapter /\ idKey = js "id") ->
  (forall e, e ∈ batch -> is_Some (e !! idKey)) ->
  NoDup (map (fun e => e !! idKey) batch) ->
  exists lib,
    loadLibrary_onEntries batch this =
      (setCitationServiceLibrary (Some lib) (setLibrary (Some lib) this),
       Resolved (ResLibrary lib)) /\
    Library_size lib = length batch /\
    (forall e k, e ∈ batch -> e !! idKey = Some k ->
       entries lib !! k = Some (adapter e)) /\
    (forall k v, entries lib !! k = Some v ->
       exists e, e ∈ batch /\ e !! idKey = Some k /\ v = adapter e).
Proof.
  intros Hfmt Hwf Hnd.
  assert (selectAdapter (citationExportFormat (settings this))
          = Some (adapter, idKey)) as Hsel.
  { destruct Hfmt as [(-> & -> & ->)|(-> & -> & ->)]; reflexivity. }
  pose proof (NoDup_keys batch idKey Hwf Hnd) as Hkeys.
  set (pairs := map (fun e => (ToString (e !! idKey), adapter e)) batch).
  assert (pairs.*1 = map (fun e => ToString (e !! idKey)) batch) as Hfst.
  { unfold pairs. rewrite <- list_fmap_compose. reflexivity. }
  destruct (fold_insert_spec pairs ∅) as [Hsize Hlook].
  { rewrite Hfst. exact Hkeys. }
  { intros. apply lookup_empty. }
  exists (mkLibrary (fromEntries pairs)).
  split; [|split; [|split]].
  - unfold loadLibrary_onEntries, buildLibrary. rewrite Hsel. reflexivity.
  - unfold Library_size, fromEntries. simpl. rewrite Hsize, map_size_empty.
    unfold pairs. rewrite length_map. reflexivity.
  - intros e k He Hk. simpl. unfold fromEntries. apply Hlook. left.
    unfold pairs. apply list_elem_of_fmap. exists e. rewrite Hk. auto.
  - intros k v Hkv. simpl in Hkv. unfold fromEntries in Hkv.
    apply Hlook in Hkv as [Hin|Hempty]; [|rewrite lookup_empty in Hempty; discriminate].
    unfold pairs in Hin. apply list_elem_of_fmap in Hin as (e & Heq & He).
    exists e. split; [exact He|]. simplify_eq.
    destruct (Hwf e He) as [k Hk]. rewrite Hk. auto.
Qed.


Lemma library_has_one_entry_per_record_witness :
  exists lib,
    loadLibrary_onEntries [sampleRecord; otherRecord] samplePlugin =
      (setCitationServiceLibrary (Some lib)
         (setLibrary (Some lib) samplePlugin),
       Resolved (ResLibrary lib)) /\
    Library_size lib = length [sampleRecord; otherRecord] /\
    (forall e k, e ∈ [sampleRecord; otherRecord] -> e !! js "id" = Some k ->
       entries lib !! k = Some (EntryCSLAdapter e)) /\
    (forall k v, entries lib !! k = Some v ->
       exists e, e ∈ [sampleRecord; otherRecord] /\
                 e !! js "id" = Some k /\ v = EntryCSLAdapter e).
Proof.
  apply (library_has_one_entry_per_record samplePlugin
           [sampleRecord; otherRecord] EntryCSLAdapter (js "id")).
  - right. repeat split; reflexivity.
  - apply Forall_forall. repeat constructor; eexists; reflexivity.
  - apply (bool_decide_unpack _). vm_compute. exact I.
Defined.

(** ** Templates *)

Lemma templateOf_compile (kind : TemplateKind) (this : CitationPlugin) :
  templateOf kind this =
  compileTemplate (templateSource kind (settings this)) templateSettings.
Proof. destruct kind; reflexivity. Qed.

Lemma renderSegment_noEscape (vars : TemplateVariables) (seg : Segment) :
  renderSegment templateSettings vars seg = rawSegment vars seg.
Proof. destruct seg; simpl; [reflexivity|]. destruct (vars !! name); reflexivity. Qed.

(** C8: each of the four templates the plugin compiles (title, content,
    citation, alternative citation) renders every variable map without
    entity-escaping: an expression is replaced by the value of its variable
    as it is; so the template "{{title}}" rendered with title = "Foo & Bar"
    gives "Foo & Bar". *)
Theorem templates_render_unescaped (kind : TemplateKind)
    (this : CitationPlugin) :
  (forall render vars,
     templateOf kind this = Some render ->
     exists segs,
       scan false [] (templateSource kind (settings this)) = Some segs /\
       render vars = flat_map (rawSegment vars) segs) /\
  (templateSource kind (settings this) = js "{{title}}" ->
   exists render,
     templateOf kind this = Some render /\
     render {[ js "title" := js "Foo & Bar" ]} = js "Foo & Bar").
Proof.
  rewrite templateOf_compile. unfold compileTemplate. split.
  - intros render vars H.
    destruct (scan false [] (templateSource kind (settings this)))
      as [segs|]; [|discriminate].
    exists segs. split; [reflexivity|]. simplify_eq.
    induction segs as [|seg segs IH]; simpl; [reflexivity|].
    rewrite renderSegment_noEscape, IH. reflexivity.
  - intros ->. eexists. split; [reflexivity|]. vm_compute. reflexivity.
Qed.

Lemma templates_render_unescaped_witness :
  exists render,
    templateOf ContentTemplate samplePlugin = Some render /\
    render {[ js "title" := js "Foo & Bar" ]} = js "Foo & Bar".
Proof.
  apply (proj2 (templates_render_unescaped ContentTemplate samplePlugin)).
  reflexivity.
Defined.

(** With [noEscape] unset the same template would give "Foo &amp; Bar". *)
Lemma escaping_would_differ :
  (fun t => t {[ js "title" := js "Foo & Bar" ]})
    <$> compileTemplate (js "{{title}}") (mkOptions false)
  = Some (js "Foo &amp; Bar").
Proof. vm_compute. reflexivity. Qed.


(** ** Preview post-processing *)

Lemma startsWith_spec (p s : jsstring) :
  startsWith p s = true <-> exists t, s = p ++ t.
Proof.
  revert s. induction p as [|a p IH]; intros s; simpl.
  - split; [eauto|reflexivity].
  - destruct s as [|b s].
    + split; [discriminate|]. intros [t Ht]. discriminate.
    + rewrite andb_true_iff, N.eqb_eq, IH. split.
      * intros [-> [t ->]]. eauto.
      * intros [t Ht]. simplify_eq. eauto.
Qed.

Lemma splitFirst_Some (needle s before after : jsstring) :
  splitFirst needle s = Some (before, after) ->
  s = before ++ needle ++ after.
Proof.
  revert before. induction s as [|c s IH]; intros before H.
  - destruct needle; simpl in H; [|discriminate]. simplify_eq. reflexivity.
  - simpl in H. destruct (startsWith needle (c :: s)) eqn:Hs.
    + simplify_eq. apply startsWith_spec in Hs as [t Ht].
      rewrite Ht. simpl. rewrite drop_app_length. reflexivity.
    + destruct (splitFirst needle s) as [[b a]|] eqn:Hrec; [|discriminate].
      simplify_eq. simpl. f_equal. apply IH. reflexivity.
Qed.

Lemma splitFirst_None (needle s : jsstring) :
  splitFirst needle s = None -> forall a b, s <> a ++ needle ++ b.
Proof.
  induction s as [|c s IH]; intros H a b Heq.
  - simpl in H. destruct (startsWith needle []) eqn:Hs; [discriminate|].
    destruct a; [|discriminate]. simpl in Heq.
    assert (startsWith needle [] = true) by (apply startsWith_spec; eauto).
    congruence.
  - simpl in H. destruct (startsWith needle (c :: s)) eqn:Hs; [discriminate|].
    destruct (splitFirst needle s) as [[b' a']|] eqn:Hrec; [discriminate|].
    destruct a as [|x a].
    + simpl in Heq.
      assert (startsWith needle (c :: s) = true)
        by (apply startsWith_spec; eauto).
      congruence.
    + simpl in Heq. simplify_eq. eapply IH; eauto.
Qed.

Lemma includes_spec (s needle : jsstring) :
  includes s needle = true <-> exists a b, s = a ++ needle ++ b.
Proof.
  unfold includes. destruct (splitFirst needle s) as [[a b]|] eqn:H.
  - split; [intros _|reflexivity]. exists a, b. apply splitFirst_Some. exact H.
  - split; [discriminate|]. intros (a & b & Heq). exfalso.
    eapply splitFirst_None; eauto.
Qed.

Lemma getSubstitution_plain (matched_ before after replacement : jsstring) :
  Forall (fun c => c <> ch "$") replacement ->
  getSubstitution matched_ before after replacement = replacement.
Proof.
  induction 1 as [|c r Hc Hr IH]; [reflexivity|].
  cbn [getSubstitution]. apply N.eqb_neq in Hc. rewrite Hc, IH. reflexivity.
Qed.

(** [replace] puts the replacement in the place of the first occurrence of
    the search string, and returns the string as it is when there is none. *)
Lemma replace_spec (s searchString replaceValue : jsstring) :
  Forall (fun c => c <> ch "$") replaceValue ->
  match splitFirst searchString s with
  | Some (before, after) =>
      s = before ++ searchString ++ after /\
      replace s searchString replaceValue = before ++ replaceValue ++ after
  | None =>
      (forall a b, s <> a ++ searchString ++ b) /\
      replace s searchString replaceValue = s
  end.
Proof.
  intros Hplain. unfold replace.
  destruct (splitFirst searchString s) as [[before after]|] eqn:Hsplit.
  - split; [apply splitFirst_Some; exact Hsplit|].
    rewrite getSubstitution_plain by exact Hplain. reflexivity.
  - split; [apply splitFirst_None; exact Hsplit|reflexivity].
Qed.

(** The pathnames [postProcessMarkdown] takes for citations: "/@" followed
    by a non-empty citekey without line terminators; [match[1]] is the
    citekey with its "@", [match[2]] the citekey. *)
Lemma pathnamePattern_spec (p : jsstring) (mr : MatchResult) :
  match_ false pathnamePattern p = Some mr <->
  exists citekey,
    citekey <> [] /\ singleLine citekey /\
    p = ch "/" :: ch "@" :: citekey /\
    mr = Match 0 p [(1, ch "@" :: citekey); (2, citekey)].
Proof.
  unfold match_. split.
  - intros H.
    destruct (search false pathnamePattern [] p) as [[res e]|] eqn:Hs;
      [|discriminate].
    simpl in H. simplify_eq.
    assert (m false pathnamePattern (MState [] p []) Some = Some e /\
            mr = Match 0 (consumed (MState [] p []) e) (caps e)) as [Hm ->].
    { destruct p as [|c after]; cbn [search] in Hs.
      - destruct (m false pathnamePattern (MState [] [] []) Some);
          simplify_eq. auto.
      - destruct (m false pathnamePattern (MState [] (c :: after) []) Some);
          simplify_eq; [auto|].
        rewrite search_not_at_start in Hs by reflexivity. discriminate. }
    clear Hs. unfold pathnamePattern in Hm. cbn [m atBol prev] in Hm.
    unfold eat at 1 in Hm. cbn [rest] in Hm.
    destruct p as [|c0 p]; [discriminate|].
    destruct (N.eqb (ch "/") c0) eqn:H0; [|discriminate].
    apply N.eqb_eq in H0. subst c0. cbn [prev caps] in Hm.
    unfold eat at 1 in Hm. cbn [rest] in Hm.
    destruct p as [|c1 p]; [discriminate|].
    destruct (N.eqb (ch "@") c1) eqn:H1; [|discriminate].
    apply N.eqb_eq in H1. subst c1. cbn [prev caps rest] in Hm.
    unfold eat at 1 in Hm. cbn [rest] in Hm.
    destruct p as [|c2 p]; [discriminate|].
    destruct (isLineTerminator c2) eqn:H2; [discriminate|].
    cbn [negb prev caps rest] in Hm.
    apply (repeat_Dot_sound false true) in Hm
      as (eaten & Hline & after & Hrest & Hk).
    cbn [prev rest caps] in Hrest, Hk. unfold atEol in Hk.
    cbn [rest] in Hk. destruct after as [|x after]; [|discriminate].
    simplify_eq. rewrite app_nil_r in *.
    exists (c2 :: eaten). split; [discriminate|].
    split; [constructor; assumption|]. split; [reflexivity|].
    cbn [caps].
    rewrite !consumed_to_end by (rewrite length_app, length_rev; simpl; lia).
    reflexivity.
  - intros (citekey & Hne & Hline & -> & ->).
    destruct citekey as [|c2 line]; [congruence|].
    pose proof (Forall_inv Hline) as H2. simpl in H2.
    apply Forall_inv_tail in Hline.
    cbn [search]. unfold pathnamePattern.
    rewrite m_Cat, m_Bol. cbn [atBol prev].
    rewrite m_Cat, m_Chr. unfold eat at 1. cbn [rest prev caps].
    rewrite N.eqb_refl.
    rewrite m_Cat, m_Group, m_Cat, m_Chr. unfold eat at 1.
    cbn [rest prev caps]. rewrite N.eqb_refl.
    rewrite m_Group, m_Plus, m_Dot. unfold eat at 1. cbn [rest prev caps].
    rewrite H2. cbn [negb rest prev caps].
    erewrite repeat_Dot_all; [|exact Hline|lia|].
    2:{ cbn [prev rest caps]. rewrite m_Eol. unfold atEol. cbn [rest].
        reflexivity. }
    cbn [fmap option_fmap option_map fst caps].
    rewrite !consumed_to_end by (rewrite length_app, length_rev; simpl; lia).
    reflexivity.
Qed.

(** * Further properties *)

(** ** The matcher, continued *)

Lemma reach_suffix (s s' : mstate) :
  reach s s' -> exists mid, rest s = mid ++ rest s'.
Proof.
  intros [Hcontent Hlen].
  apply app_eq_inv in Hcontent as [(k & Hk & ->)|(k & Hk & Hr)].
  - exists k. reflexivity.
  - rewrite Hr in Hlen. rewrite length_app in Hlen.
    destruct k; [|simpl in Hlen; lia]. exists []. exact (eq_sym Hr).
Qed.

Lemma m_mustEat (multiline : bool) (c : N) (r : regex) :
  mustEat c r = true ->
  forall s k e, m multiline r s k = Some e -> c ∈ rest s.
Proof.
  induction r; intros Hr s k e H; try discriminate; cbn [mustEat] in Hr.
  - apply N.eqb_eq in Hr. subst c0. rewrite m_Chr in H. unfold eat in H.
    destruct (rest s) as [|x xs]; [discriminate|].
    destruct (N.eqb c x) eqn:Hx; [|discriminate].
    apply N.eqb_eq in Hx. subst x. left.
  - rewrite m_Cat in H. apply orb_true_iff in Hr as [Hr|Hr].
    + eapply IHr1; eauto.
    + apply m_sound in H as (s1 & Hreach & H).
      destruct (reach_suffix _ _ Hreach) as [mid ->].
      apply elem_of_app. right. eapply IHr2; eauto.
  - rewrite m_Plus in H. eapply IHr; eauto.
  - rewrite m_Group in H. eapply IHr; eauto.
Qed.

Lemma search_mustEat (multiline : bool) (c : N) (r : regex)
    (after : list N) :
  mustEat c r = true -> c ∉ after ->
  forall before, search multiline r before after = None.
Proof.
  intros Hr. induction after as [|x after IH]; intros Hc before;
    cbn [search];
    (destruct (m multiline r (MState before _ []) Some) as [e|] eqn:Hm;
     [exfalso; apply Hc; apply (m_mustEat multiline c r Hr _ _ _ Hm)|]).
  - reflexivity.
  - apply IH. intros Hin. apply Hc. right. exact Hin.
Qed.

Lemma citationPattern_mustEat (c : N) :
  c = ch "[" \/ c = ch "@" \/ c = ch "]" ->
  mustEat c citationPattern = true.
Proof. intros [Hc|[Hc|Hc]]; subst c; reflexivity. Qed.

Lemma citationPattern_split :
  citationPattern = Bol +++ Star true Dot +++ referencePattern.
Proof. reflexivity. Qed.

Lemma m_Opt (multiline greedy : bool) (r : regex) (s : mstate) (k : cont) :
  m multiline (Opt greedy r) s k =
  let once :=
    m multiline r s (fun s' =>
      if Nat.eqb (endIndex s') (endIndex s) then None else k s') in
  if greedy then orElse once (k s) else orElse (k s) once.
Proof. reflexivity. Qed.

Lemma m_Class (multiline negated : bool) (cs : list N) (s : mstate)
    (k : cont) :
  m multiline (Class negated cs) s k =
  eat (fun c => xorb negated (inClass cs c)) s k.
Proof. reflexivity. Qed.

Lemma eat_cons (p : N -> bool) (before after : list N) (c : N)
    (cs : list (nat * jsstring)) (k : cont) :
  eat p (MState before (c :: after) cs) k =
  if p c then k (MState (c :: before) after cs) else None.
Proof. reflexivity. Qed.

Lemma endIndex_cons (before after after' : list N) (c : N)
    (cs cs' : list (nat * jsstring)) :
  Nat.eqb (endIndex (MState (c :: before) after cs))
          (endIndex (MState before after' cs')) = false.
Proof. apply Nat.eqb_neq. unfold endIndex. simpl. lia. Qed.

(** When the continuation fails at every position further right, a greedy
    run of [.] iterations hands over where it stands. *)
Lemma repeat_Dot_beyond (multiline : bool) (k : cont) :
  forall fuel l2 before cs,
    (forall s', (exists l2a, l2a <> [] /\ l2 = l2a ++ rest s') ->
                k s' = None) ->
    repeat (m multiline Dot) true k fuel (MState before l2 cs) =
    k (MState before l2 cs).
Proof.
  induction fuel as [|fuel IH]; intros l2 before cs Hfail; [reflexivity|].
  cbn [repeat]. rewrite m_Dot. destruct l2 as [|c l2]; [reflexivity|].
  rewrite eat_cons. destruct (negb (isLineTerminator c)); [|reflexivity].
  rewrite endIndex_cons, IH.
  - rewrite Hfail; [reflexivity|]. exists [c]. split; [discriminate|].
    reflexivity.
  - intros s' (l2a & Hne & ->). apply Hfail. exists (c :: l2a).
    split; [discriminate|reflexivity].
Qed.

(** A greedy run of [.] iterations backtracks to the rightmost position
    where the continuation succeeds. *)
Lemma repeat_Dot_last (multiline : bool) (k : cont) (e : mstate)
    (l2 : list N) (cs : list (nat * jsstring)) :
  (forall s', (exists l2a, l2a <> [] /\ l2 = l2a ++ rest s') ->
              k s' = None) ->
  forall l1 before fuel,
    singleLine l1 -> length l1 < fuel ->
    k (MState (rev l1 ++ before) l2 cs) = Some e ->
    repeat (m multiline Dot) true k fuel (MState before (l1 ++ l2) cs)
    = Some e.
Proof.
  intros Hfail. induction l1 as [|c l1 IH]; intros before fuel Hline Hfuel Hk.
  - cbn [app]. rewrite repeat_Dot_beyond by exact Hfail. exact Hk.
  - destruct fuel as [|fuel]; [simpl in Hfuel; lia|].
    cbn [repeat]. rewrite m_Dot. cbn [app]. rewrite eat_cons.
    pose proof (Forall_inv Hline) as Hc. simpl in Hc. rewrite Hc.
    cbn [negb]. rewrite endIndex_cons.
    rewrite (IH (c :: before) fuel).
    + reflexivity.
    + apply Forall_inv_tail in Hline. exact Hline.
    + simpl in Hfuel. lia.
    + simpl in Hk. rewrite <- app_assoc in Hk. exact Hk.
Qed.

(** A lazy run of class iterations stops at the first position where the
    continuation succeeds. *)
Lemma repeat_Class_first (multiline negated : bool) (cls : list N)
    (k : cont) (e : mstate) (l2 : list N) (cs : list (nat * jsstring)) :
  forall l1 before fuel,
    Forall (fun c => xorb negated (inClass cls c) = true) l1 ->
    length l1 < fuel ->
    (forall l1a l1b p,
       l1 = l1a ++ l1b -> l1b <> [] -> k (MState p (l1b ++ l2) cs) = None) ->
    k (MState (rev l1 ++ before) l2 cs) = Some e ->
    repeat (m multiline (Class negated cls)) false k fuel
      (MState before (l1 ++ l2) cs) = Some e.
Proof.
  induction l1 as [|c l1 IH]; intros before fuel Hcls Hfuel Hfail Hk;
    (destruct fuel as [|fuel]; [simpl in Hfuel; lia|]); cbn [repeat].
  - cbn [app]. simpl in Hk. rewrite Hk. reflexivity.
  - rewrite (Hfail [] (c :: l1) before eq_refl) by discriminate.
    cbn [orElse]. rewrite m_Class. cbn [app]. rewrite eat_cons.
    rewrite (Forall_inv Hcls). rewrite endIndex_cons.
    apply IH.
    + apply Forall_inv_tail in Hcls. exact Hcls.
    + simpl in Hfuel. lia.
    + intros l1a l1b p -> Hne. apply (Hfail (c :: l1a) l1b p); auto.
    + simpl in Hk. rewrite <- app_assoc in Hk. exact Hk.
Qed.

(** A greedy run of class iterations takes every code unit of the class
    when the continuation succeeds behind them. *)
Lemma repeat_Class_all (multiline negated : bool) (cls : list N)
    (k : cont) (e : mstate) (l2 : list N) (cs : list (nat * jsstring)) :
  (forall c l2', l2 = c :: l2' -> xorb negated (inClass cls c) = false) ->
  forall l1 before fuel,
    Forall (fun c => xorb negated (inClass cls c) = true) l1 ->
    length l1 < fuel ->
    k (MState (rev l1 ++ before) l2 cs) = Some e ->
    repeat (m multiline (Class negated cls)) true k fuel
      (MState before (l1 ++ l2) cs) = Some e.
Proof.
  intros Hstop.
  induction l1 as [|c l1 IH]; intros before fuel Hcls Hfuel Hk;
    (destruct fuel as [|fuel]; [simpl in Hfuel; lia|]); cbn [repeat].
  - cbn [app]. rewrite m_Class. simpl in Hk. destruct l2 as [|c l2].
    + cbn [eat rest orElse]. exact Hk.
    + rewrite eat_cons, (Hstop c l2 eq_refl). cbn [orElse]. exact Hk.
  - rewrite m_Class. cbn [app]. rewrite eat_cons, (Forall_inv Hcls).
    rewrite endIndex_cons. rewrite (IH (c :: before) fuel).
    + reflexivity.
    + apply Forall_inv_tail in Hcls. exact Hcls.
    + simpl in Hfuel. lia.
    + simpl in Hk. rewrite <- app_assoc in Hk. exact Hk.
Qed.

Lemma endIndex_app (l before after after' : list N)
    (cs cs' : list (nat * jsstring)) :
  l <> [] ->
  Nat.eqb (endIndex (MState (l ++ before) after cs))
          (endIndex (MState before after' cs')) = false.
Proof.
  intros Hl. apply Nat.eqb_neq. unfold endIndex. cbn [prev].
  rewrite length_app. destruct l; [congruence|]. simpl. lia.
Qed.

Lemma plainKeyChar_spec (c : N) :
  plainKeyChar c = true ->
  isLineTerminator c = false /\
  N.eqb (ch "[") c = false /\ N.eqb (ch "]") c = false /\
  xorb true (inClass [ch "]"] c) = true /\
  xorb false (inClass [ch "#"; ch "^"] c) = false.
Proof.
  unfold plainKeyChar, inClass. cbn [existsb].
  rewrite !(N.eqb_sym c).
  destruct (isLineTerminator c), (N.eqb (ch "[") c), (N.eqb (ch "]") c),
    (N.eqb (ch "#") c), (N.eqb (ch "^") c); cbn; intros H;
    try discriminate; auto.
Qed.

(** The rest of the line after the closing bracket: [\]?.*$]. *)
Lemma m_line_end (before suffix : list N) (cs : list (nat * jsstring)) :
  singleLine suffix ->
  m true (Opt true (Chr (ch "]")) +++ Star true Dot +++ Eol)
    (MState before suffix cs) Some =
  Some (MState (rev suffix ++ before) [] cs).
Proof.
  intros Hline.
  assert (forall line p,
            singleLine line ->
            m true (Star true Dot +++ Eol) (MState p line cs) Some =
            Some (MState (rev line ++ p) [] cs)) as Hdots.
  { intros line p Hl. rewrite m_Cat, m_Star.
    apply repeat_Dot_all; [exact Hl|simpl; lia|]. rewrite m_Eol.
    reflexivity. }
  rewrite m_Cat, m_Opt. cbv zeta. rewrite m_Chr.
  destruct suffix as [|c suffix].
  - cbn [eat rest orElse]. apply (Hdots [] before). constructor.
  - rewrite eat_cons. destruct (N.eqb (ch "]") c) eqn:Hc.
    + rewrite endIndex_cons.
      rewrite (Hdots suffix (c :: before))
        by (apply Forall_inv_tail in Hline; exact Hline).
      cbn [orElse rev]. rewrite <- app_assoc. reflexivity.
    + cbn [orElse]. apply (Hdots (c :: suffix) before). exact Hline.
Qed.

(** After a citekey code unit neither a locator nor the closing bracket
    can follow at once. *)
Lemma m_after_citekey_fails (c : N) (p after : list N)
    (cs : list (nat * jsstring)) (r : regex) (k : cont) :
  plainKeyChar c = true ->
  m true (Opt true locatorPattern +++ Chr (ch "]") +++ r)
    (MState p (c :: after) cs) k = None.
Proof.
  intros Hc. destruct (plainKeyChar_spec c Hc) as (_ & _ & Hb & _ & Hl).
  rewrite m_Cat, m_Opt. cbv zeta. unfold locatorPattern at 1.
  rewrite m_Cat, m_Plus, m_Class, eat_cons, Hl. cbn [orElse].
  rewrite m_Cat, m_Chr, eat_cons, Hb. reflexivity.
Qed.

Lemma referencePattern_needs_bracket (s : mstate) (k : cont) :
  (forall after, rest s <> ch "[" :: after) ->
  m true referencePattern s k = None.
Proof.
  intros Hs. unfold referencePattern. rewrite m_Cat, m_Chr. unfold eat.
  destruct (rest s) as [|c after] eqn:Hr; [reflexivity|].
  destruct (N.eqb (ch "[") c) eqn:Hc; [|reflexivity].
  apply N.eqb_eq in Hc. subst c. exfalso. exact (Hs after eq_refl).
Qed.

Lemma referencePattern_matches (before citekey suffix : list N) :
  plainCitekey citekey -> singleLine suffix ->
  m true referencePattern
    (MState before (ch "[" :: ch "@" :: citekey ++ ch "]" :: suffix) [])
    Some =
  Some (MState
          (rev suffix ++ ch "]" :: rev citekey ++ ch "@" :: ch "[" :: before)
          [] [(1, citekey)]).
Proof.
  intros [Hne Hkey] Hsuffix. unfold referencePattern.
  rewrite m_Cat, m_Chr, eat_cons, N.eqb_refl.
  rewrite m_Cat, m_Opt. cbv zeta. rewrite m_Chr, eat_cons.
  replace (N.eqb (ch "[") (ch "@")) with false by reflexivity.
  cbn [orElse].
  rewrite m_Cat, m_Chr, eat_cons, N.eqb_refl.
  rewrite m_Cat, m_Group, m_Plus, m_Class.
  destruct citekey as [|c citekey]; [congruence|].
  pose proof (Forall_inv Hkey) as Hc. apply Forall_inv_tail in Hkey.
  destruct (plainKeyChar_spec c Hc) as (_ & _ & _ & Hcls & _).
  cbn [app]. rewrite eat_cons, Hcls. cbn [rest].
  erewrite repeat_Class_first; [reflexivity| | | |].
  - eapply Forall_impl; [exact Hkey|]. intros x Hx.
    apply (plainKeyChar_spec x Hx).
  - rewrite length_app. simpl. lia.
  - intros l1a l1b p Heq Hl1b. cbn [prev rest caps].
    destruct l1b as [|x l1b]; [congruence|].
    assert (plainKeyChar x = true) as Hx.
    { rewrite Heq in Hkey. apply Forall_app in Hkey as [_ Hkey'].
      exact (Forall_inv Hkey'). }
    cbn [app]. apply m_after_citekey_fails. exact Hx.
  - cbn [prev rest caps].
    rewrite m_Cat, m_Opt. cbv zeta. unfold locatorPattern at 1.
    rewrite m_Cat, m_Plus, m_Class, eat_cons.
    replace (xorb false (inClass [ch "#"; ch "^"] (ch "]"))) with false
      by reflexivity.
    cbn [orElse]. rewrite m_Cat, m_Chr, eat_cons, N.eqb_refl.
    rewrite m_line_end by exact Hsuffix.
    f_equal. f_equal.
    + cbn [rev]. rewrite <- !app_assoc. reflexivity.
    + f_equal. f_equal. unfold consumed, endIndex. cbn [prev rest].
      rewrite length_app, length_rev. cbn [length].
      replace (length citekey + S (S (S (length before)))
               - S (S (length before))) with (length (c :: citekey))
        by (simpl; lia).
      change (c :: citekey ++ ch "]" :: suffix)
        with ((c :: citekey) ++ ch "]" :: suffix).
      apply take_app_length.
Qed.

Lemma referencePattern_matches_located
    (before citekey marks locator suffix : list N) :
  plainCitekey citekey -> locatorMarks marks -> plainCitekey locator ->
  singleLine suffix ->
  m true referencePattern
    (MState before
       (ch "[" :: ch "@" :: citekey ++ marks ++ locator ++ ch "]" :: suffix)
       [])
    Some =
  Some (MState
          (rev suffix ++ ch "]" :: rev locator ++ rev marks ++ rev citekey ++
           ch "@" :: ch "[" :: before)
          [] [(1, citekey)]).
Proof.
  intros [Hne Hkey] [Hmne Hmarks] [Hlne Hloc] Hsuffix. unfold referencePattern.
  rewrite m_Cat, m_Chr, eat_cons, N.eqb_refl.
  rewrite m_Cat, m_Opt. cbv zeta. rewrite m_Chr, eat_cons.
  replace (N.eqb (ch "[") (ch "@")) with false by reflexivity.
  cbn [orElse].
  rewrite m_Cat, m_Chr, eat_cons, N.eqb_refl.
  rewrite m_Cat, m_Group, m_Plus, m_Class.
  destruct citekey as [|c citekey]; [congruence|].
  pose proof (Forall_inv Hkey) as Hc. apply Forall_inv_tail in Hkey.
  destruct (plainKeyChar_spec c Hc) as (_ & _ & _ & Hcls & _).
  cbn [app]. rewrite eat_cons, Hcls. cbn [rest].
  erewrite repeat_Class_first; [reflexivity| | | |].
  - eapply Forall_impl; [exact Hkey|]. intros x Hx.
    apply (plainKeyChar_spec x Hx).
  - rewrite length_app. simpl. lia.
  - intros l1a l1b p Heq Hl1b. cbn [prev rest caps].
    destruct l1b as [|x l1b]; [congruence|].
    assert (plainKeyChar x = true) as Hx.
    { rewrite Heq in Hkey. apply Forall_app in Hkey as [_ Hkey'].
      exact (Forall_inv Hkey'). }
    cbn [app]. apply m_after_citekey_fails. exact Hx.
  - cbn [prev rest caps].
    set (s1 := MState (rev citekey ++ c :: ch "@" :: ch "[" :: before)
                 (marks ++ locator ++ ch "]" :: suffix)
                 [(1, consumed
                        (MState (ch "@" :: ch "[" :: before)
                           (c :: citekey ++ marks ++ locator ++
                            ch "]" :: suffix) [])
                        (MState
                           (rev citekey ++ c :: ch "@" :: ch "[" :: before)
                           (marks ++ locator ++ ch "]" :: suffix) []))]).
    rewrite m_Cat, m_Opt. cbv zeta. unfold locatorPattern at 1.
    rewrite m_Cat, m_Plus, m_Class.
    destruct marks as [|x marks]; [congruence|].
    pose proof (Forall_inv Hmarks) as Hx. apply Forall_inv_tail in Hmarks.
    destruct locator as [|d locator]; [congruence|].
    pose proof (Forall_inv Hloc) as Hd. apply Forall_inv_tail in Hloc.
    destruct (plainKeyChar_spec d Hd) as (_ & _ & _ & Hdcls & Hdm).
    unfold s1 at 1. cbn [app]. rewrite eat_cons. cbn [xorb]. rewrite Hx.
    cbn [rest prev caps].
    erewrite (repeat_Class_all true false); [reflexivity| | | |].
    + intros c0 l2' Heq. injection Heq as <- _. exact Hdm.
    + exact Hmarks.
    + rewrite length_app. simpl. lia.
    + cbn [prev rest caps].
      rewrite m_Plus, m_Class, eat_cons, Hdcls. cbn [rest].
      erewrite (repeat_Class_all true true); [reflexivity| | | |].
      * intros c0 l2' Heq. injection Heq as <- _. reflexivity.
      * eapply Forall_impl; [exact Hloc|]. intros y Hy.
        apply (plainKeyChar_spec y Hy).
      * rewrite length_app. simpl. lia.
      * unfold s1.
        replace (rev locator ++ d :: rev marks ++ x :: rev citekey ++
                 c :: ch "@" :: ch "[" :: before)
          with ((rev locator ++ d :: rev marks ++ [x]) ++
                rev citekey ++ c :: ch "@" :: ch "[" :: before)
          by (rewrite <- !app_assoc; cbn [app]; rewrite <- !app_assoc;
              reflexivity).
        rewrite endIndex_app by (destruct (rev locator); discriminate).
        rewrite m_Cat, m_Chr, eat_cons, N.eqb_refl.
        rewrite m_line_end by exact Hsuffix.
        f_equal. f_equal.
        -- cbn [rev]. rewrite <- !app_assoc. cbn [app].
           rewrite <- !app_assoc. reflexivity.
        -- f_equal. f_equal. unfold consumed, endIndex. cbn [prev rest].
           rewrite length_app, length_rev. cbn [length].
           replace (length citekey + S (S (S (length before)))
                    - S (S (length before))) with (length (c :: citekey))
             by (simpl; lia).
           exact (take_app_length (c :: citekey) _).
Qed.

Lemma singleLine_app (l1 l2 : jsstring) :
  singleLine (l1 ++ l2) <-> singleLine l1 /\ singleLine l2.
Proof. apply Forall_app. Qed.

Lemma plainCitekey_singleLine (citekey : jsstring) :
  plainCitekey citekey -> singleLine citekey.
Proof.
  intros [_ H]. eapply Forall_impl; [exact H|]. intros c Hc.
  apply (plainKeyChar_spec c Hc).
Qed.

(** On a single line that holds a reference at [l2] and no "[" after its
    first code unit, the pattern matches the whole line once, with the
    captures of the reference. *)
Lemma matchAll_line (prefix l2 : jsstring) (cs : list (nat * jsstring)) :
  singleLine prefix -> singleLine l2 ->
  (exists l2', l2 = ch "[" :: l2' /\ ch "[" ∉ l2') ->
  m true referencePattern (MState (rev prefix) l2 []) Some =
    Some (MState (rev (prefix ++ l2)) [] cs) ->
  matchAll true citationPattern (prefix ++ l2) =
  [Match 0 (prefix ++ l2) cs].
Proof.
  intros Hprefix Hl2 (l2' & Heq2 & Hnob) Href.
  set (line := prefix ++ l2).
  set (e := MState (rev line) [] cs).
  assert (m true citationPattern (MState [] line []) Some = Some e) as Hm.
  { rewrite citationPattern_split, m_Cat, m_Bol. cbn [atBol prev].
    rewrite m_Cat, m_Star. unfold line.
    apply repeat_Dot_last.
    - intros s' (l2a & Hne & Heq). apply referencePattern_needs_bracket.
      intros after Hafter. rewrite Hafter, Heq2 in Heq.
      destruct l2a as [|x l2a]; [congruence|].
      apply (f_equal (@tl N)) in Heq. cbn [tl app] in Heq.
      apply Hnob. rewrite Heq. apply elem_of_app. right. left.
    - exact Hprefix.
    - cbn [rest]. rewrite length_app. lia.
    - rewrite app_nil_r. exact Href. }
  assert (line <> []) as Hne.
  { unfold line. rewrite Heq2. destruct prefix; discriminate. }
  assert (singleLine line) as Hsingle.
  { unfold line. apply singleLine_app. auto. }
  assert (search true citationPattern [] line =
          Some (Match 0 line cs, e)) as Hsearch.
  { destruct line as [|c line'] eqn:Hl; [congruence|].
    cbn [search]. rewrite Hm. unfold e. cbn [caps endIndex prev length].
    rewrite consumed_to_end by (rewrite length_rev; simpl; lia).
    reflexivity. }
  unfold matchAll. cbn [matchAllFrom]. rewrite Hsearch.
  cbn [matched]. destruct line as [|c line'] eqn:Hl; [congruence|].
  f_equal. unfold e. cbn [prev rest].
  destruct (length (c :: line')) as [|fuel]; [reflexivity|].
  cbn [matchAllFrom search].
  rewrite m_startsWithBol; [reflexivity|reflexivity|].
  unfold atBol. cbn [prev].
  destruct (rev (c :: line')) as [|x xs] eqn:Hrev.
  - apply (f_equal (@length N)) in Hrev. rewrite length_rev in Hrev.
    discriminate.
  - cbn [andb].
    assert (x ∈ c :: line') as Hx.
    { apply list_elem_of_In, in_rev. rewrite Hrev. left. reflexivity. }
    unfold singleLine in Hsingle. rewrite Forall_forall in Hsingle.
    exact (Hsingle x Hx).
Qed.

Lemma plainCitekey_no_bracket (citekey : jsstring) :
  plainCitekey citekey -> ch "[" ∉ citekey.
Proof.
  intros [_ Hkey] Hin. rewrite Forall_forall in Hkey.
  destruct (plainKeyChar_spec _ (Hkey _ Hin)) as (_ & Hb & _).
  rewrite N.eqb_refl in Hb. discriminate.
Qed.

Lemma matchAll_reference (prefix citekey suffix : jsstring) :
  singleLine prefix -> plainCitekey citekey ->
  singleLine suffix -> ch "[" ∉ suffix ->
  matchAll true citationPattern (prefix ++ reference citekey ++ suffix) =
  [Match 0 (prefix ++ reference citekey ++ suffix) [(1, citekey)]].
Proof.
  intros Hprefix Hkey Hsuffix Hnob.
  assert (reference citekey ++ suffix =
          ch "[" :: ch "@" :: citekey ++ ch "]" :: suffix) as Hl2.
  { unfold reference. cbn [app]. rewrite <- app_assoc. reflexivity. }
  rewrite Hl2. apply matchAll_line.
  - exact Hprefix.
  - constructor; [reflexivity|]. constructor; [reflexivity|].
    apply singleLine_app.
    split; [apply plainCitekey_singleLine; exact Hkey|].
    constructor; [reflexivity|exact Hsuffix].
  - eexists. split; [reflexivity|]. intros Hin.
    apply elem_of_cons in Hin as [Hin|Hin]; [discriminate|].
    rewrite elem_of_app, elem_of_cons in Hin.
    destruct Hin as [Hin|[Hin|Hin]];
      [exact (plainCitekey_no_bracket _ Hkey Hin)|discriminate|
       exact (Hnob Hin)].
  - rewrite (referencePattern_matches (rev prefix) citekey suffix Hkey
               Hsuffix).
    f_equal. f_equal.
    change (ch "[" :: ch "@" :: citekey ++ ch "]" :: suffix)
      with ([ch "["; ch "@"] ++ citekey ++ [ch "]"] ++ suffix).
    rewrite !rev_app_distr. cbn [rev app]. rewrite <- !app_assoc.
    reflexivity.
Qed.

Lemma locatorMarks_spec (marks : jsstring) :
  locatorMarks marks -> singleLine marks /\ ch "[" ∉ marks.
Proof.
  intros [_ Hmarks]. rewrite Forall_forall in Hmarks. split.
  - apply Forall_forall. intros c Hc. specialize (Hmarks c Hc).
    unfold inClass in Hmarks. cbn [existsb] in Hmarks.
    rewrite orb_false_r in Hmarks.
    apply orb_true_iff in Hmarks as [H|H]; apply N.eqb_eq in H; subst c;
      reflexivity.
  - intros Hin. specialize (Hmarks _ Hin). discriminate.
Qed.

Lemma matchAll_locatedReference
    (prefix citekey marks locator suffix : jsstring) :
  singleLine prefix -> plainCitekey citekey -> locatorMarks marks ->
  plainCitekey locator -> singleLine suffix -> ch "[" ∉ suffix ->
  matchAll true citationPattern
    (prefix ++ locatedReference citekey marks locator ++ suffix) =
  [Match 0 (prefix ++ locatedReference citekey marks locator ++ suffix)
     [(1, citekey)]].
Proof.
  intros Hprefix Hkey Hmarks Hloc Hsuffix Hnob.
  assert (locatedReference citekey marks locator ++ suffix =
          ch "[" :: ch "@" :: citekey ++ marks ++ locator ++
          ch "]" :: suffix) as Hl2.
  { unfold locatedReference. cbn [app]. rewrite <- !app_assoc. reflexivity. }
  rewrite Hl2.
  destruct (locatorMarks_spec marks Hmarks) as [Hmline Hmnob].
  apply matchAll_line.
  - exact Hprefix.
  - constructor; [reflexivity|]. constructor; [reflexivity|].
    rewrite !singleLine_app.
    split; [apply plainCitekey_singleLine; exact Hkey|].
    split; [exact Hmline|].
    split; [apply plainCitekey_singleLine; exact Hloc|].
    constructor; [reflexivity|exact Hsuffix].
  - eexists. split; [reflexivity|]. intros Hin.
    apply elem_of_cons in Hin as [Hin|Hin]; [discriminate|].
    rewrite !elem_of_app, elem_of_cons in Hin.
    destruct Hin as [Hin|[Hin|[Hin|[Hin|Hin]]]];
      [exact (plainCitekey_no_bracket _ Hkey Hin)|exact (Hmnob Hin)|
       exact (plainCitekey_no_bracket _ Hloc Hin)|discriminate|
       exact (Hnob Hin)].
  - rewrite (referencePattern_matches_located (rev prefix) citekey marks
               locator suffix Hkey Hmarks Hloc Hsuffix).
    f_equal. f_equal.
    change (ch "[" :: ch "@" :: citekey ++ marks ++ locator ++
            ch "]" :: suffix)
      with ([ch "["; ch "@"] ++ citekey ++ marks ++ locator ++
            [ch "]"] ++ suffix).
    rewrite !rev_app_distr. cbn [rev app]. rewrite <- !app_assoc.
    reflexivity.
Qed.

Lemma eat_keepsCaps (p : N -> bool) : keepsCaps (eat p).
Proof.
  intros s k e. unfold eat. destruct (rest s) as [|c cs] eqn:Hr; [discriminate|].
  destruct (p c); [|discriminate]. intros H. eexists.
  split; [|split; [|exact H]]; [|reflexivity].
  destruct s as [before after cs0]. simpl in *. subst after. apply reach_step.
Qed.

Lemma repeat_keepsCaps (body : mstate -> cont -> option mstate)
    (greedy : bool) :
  keepsCaps body ->
  forall fuel s k e,
    repeat body greedy k fuel s = Some e ->
    exists s', reach s s' /\ caps s' = caps s /\ k s' = Some e.
Proof.
  intros Hbody. induction fuel as [|fuel IH]; intros s k e H;
    cbn [repeat] in H.
  - exists s. split; [apply reach_refl|]. auto.
  - assert (body s (fun s' =>
              if Nat.eqb (endIndex s') (endIndex s) then None
              else repeat body greedy k fuel s') = Some e \/ k s = Some e)
      as [Hagain|Hk].
    { destruct greedy; apply orElse_Some in H; tauto. }
    + apply Hbody in Hagain as (s' & Hs' & Hc' & Hrec).
      destruct (Nat.eqb _ _); [discriminate|].
      apply IH in Hrec as (s'' & Hs'' & Hc'' & Hk). exists s''.
      split; [eapply reach_trans; eauto|]. split; [congruence|exact Hk].
    + exists s. split; [apply reach_refl|]. auto.
Qed.

Lemma m_keepsCaps (multiline : bool) (r : regex) :
  groupFree r = true -> keepsCaps (m multiline r).
Proof.
  induction r; intros Hr s k e H; cbn [groupFree] in Hr; try discriminate;
    cbn [m] in H.
  - eapply eat_keepsCaps; eauto.
  - eapply eat_keepsCaps; eauto.
  - eapply eat_keepsCaps; eauto.
  - destruct (atBol multiline s); [|discriminate]. exists s.
    split; [apply reach_refl|]. auto.
  - destruct (atEol multiline s); [|discriminate]. exists s.
    split; [apply reach_refl|]. auto.
  - apply andb_true_iff in Hr as [Hr1 Hr2].
    apply (IHr1 Hr1) in H as (s1 & H1 & Hc1 & H).
    apply (IHr2 Hr2) in H as (s2 & H2 & Hc2 & H).
    exists s2. split; [eapply reach_trans; eauto|]. split; [congruence|exact H].
  - eapply repeat_keepsCaps; eauto.
  - apply (IHr Hr) in H as (s1 & H1 & Hc1 & H).
    apply (repeat_keepsCaps _ _ (IHr Hr)) in H as (s2 & H2 & Hc2 & H).
    exists s2. split; [eapply reach_trans; eauto|]. split; [congruence|exact H].
  - assert (m multiline r s (fun s' =>
              if Nat.eqb (endIndex s') (endIndex s) then None else k s')
            = Some e \/ k s = Some e) as [Honce|Hk].
    { destruct greedy; apply orElse_Some in H; tauto. }
    + apply (IHr Hr) in Honce as (s' & Hs' & Hc' & Hk).
      destruct (Nat.eqb _ _); [discriminate|]. eauto.
    + exists s. split; [apply reach_refl|]. auto.
Qed.

(** What a run of class iterations consumes. *)
Lemma repeat_Class_sound (multiline greedy negated : bool) (cls : list N)
    (k : cont) :
  forall fuel s e,
    repeat (m multiline (Class negated cls)) greedy k fuel s = Some e ->
    exists eaten after,
      Forall (fun c => xorb negated (inClass cls c) = true) eaten /\
      rest s = eaten ++ after /\
      k (MState (rev eaten ++ prev s) after (caps s)) = Some e.
Proof.
  induction fuel as [|fuel IH]; intros s e H; cbn [repeat] in H.
  - exists [], (rest s). split; [constructor|]. split; [reflexivity|].
    destruct s. exact H.
  - assert (m multiline (Class negated cls) s (fun s' =>
              if Nat.eqb (endIndex s') (endIndex s) then None
              else repeat (m multiline (Class negated cls)) greedy k fuel s')
            = Some e \/ k s = Some e) as [Hagain|Hk].
    { destruct greedy; apply orElse_Some in H; tauto. }
    + cbn [m] in Hagain. unfold eat in Hagain.
      destruct (rest s) as [|c cs] eqn:Hr; [discriminate|].
      destruct (xorb negated (inClass cls c)) eqn:Hc; [|discriminate].
      destruct (Nat.eqb (endIndex _) (endIndex s)); [discriminate|].
      apply IH in Hagain as (eaten & after & Hcls & Hrest & Hk).
      cbn [prev rest caps] in Hrest, Hk. exists (c :: eaten), after.
      split; [constructor; assumption|].
      split; [simpl; congruence|]. simpl. rewrite <- app_assoc. exact Hk.
    + exists [], (rest s). split; [constructor|]. split; [reflexivity|].
      destruct s. exact Hk.
Qed.

(** A capturing group around [+] of a class records a non-empty run of
    code units of the class. *)
Lemma m_Group_Plus_Class (multiline greedy negated : bool) (i : nat)
    (cls : list N) (s : mstate) (k : cont) (e : mstate) :
  m multiline (Group i (Plus greedy (Class negated cls))) s k = Some e ->
  exists eaten after,
    eaten <> [] /\
    Forall (fun c => xorb negated (inClass cls c) = true) eaten /\
    rest s = eaten ++ after /\
    k (MState (rev eaten ++ prev s) after ((i, eaten) :: caps s)) = Some e.
Proof.
  intros H. rewrite m_Group, m_Plus in H. cbn [m] in H. unfold eat in H.
  destruct (rest s) as [|c cs] eqn:Hr; [discriminate|].
  destruct (xorb negated (inClass cls c)) eqn:Hc; [|discriminate].
  apply (repeat_Class_sound multiline greedy negated cls) in H
    as (eaten & after & Hcls & Hrest & Hk).
  cbn [prev rest caps] in Hrest, Hk. exists (c :: eaten), after.
  split; [discriminate|]. split; [constructor; assumption|].
  split; [simpl; congruence|].
  assert (consumed s (MState (rev eaten ++ c :: prev s) after (caps s))
          = c :: eaten) as Hcons.
  { unfold consumed, endIndex. cbn [prev]. rewrite Hr, Hrest.
    rewrite length_app, length_rev. cbn [length].
    replace (length eaten + S (length (prev s)) - length (prev s))
      with (length (c :: eaten)) by (simpl; lia).
    change (c :: eaten ++ after) with ((c :: eaten) ++ after).
    apply take_app_length. }
  rewrite Hcons in Hk. simpl. rewrite <- app_assoc. exact Hk.
Qed.

(** What a literal consumes. *)
Lemma m_Chr_sound (multiline : bool) (c : N) (s : mstate) (k : cont)
    (e : mstate) :
  m multiline (Chr c) s k = Some e ->
  exists after,
    rest s = c :: after /\
    k (MState (c :: prev s) after (caps s)) = Some e.
Proof.
  rewrite m_Chr. unfold eat. destruct (rest s) as [|x after]; [discriminate|].
  destruct (N.eqb c x) eqn:Hx; [|discriminate].
  apply N.eqb_eq in Hx. subst x. eauto.
Qed.

(** What an optional literal consumes: the literal or nothing. *)
Lemma m_Opt_Chr_sound (multiline greedy : bool) (c : N) (s : mstate)
    (k : cont) (e : mstate) :
  m multiline (Opt greedy (Chr c)) s k = Some e ->
  exists eaten after,
    (eaten = [] \/ eaten = [c]) /\
    rest s = eaten ++ after /\
    k (MState (rev eaten ++ prev s) after (caps s)) = Some e.
Proof.
  intros H. rewrite m_Opt in H. cbv zeta in H.
  assert (m multiline (Chr c) s (fun s' =>
            if Nat.eqb (endIndex s') (endIndex s) then None else k s')
          = Some e \/ k s = Some e) as [Honce|Hk].
  { destruct greedy; apply orElse_Some in H; tauto. }
  - apply m_Chr_sound in Honce as (after & Hrest & Hk).
    destruct (Nat.eqb _ _); [discriminate|].
    exists [c], after. auto.
  - exists [], (rest s). split; [auto|]. split; [reflexivity|].
    destruct s. exact Hk.
Qed.

(** The match [citationPattern] finds from a state without captures: the
    text it consumes holds "[@", then the citekey it records as its one
    capture, non-empty and free of "]", then a text with the closing "]". *)
Lemma citationPattern_captures (s e : mstate) :
  caps s = [] ->
  m true citationPattern s Some = Some e ->
  exists before citekey after,
    rest s = (before ++ ch "[" :: ch "@" :: citekey ++ after) ++ rest e /\
    ch "]" ∈ after /\
    caps e = [(1, citekey)] /\ citekey <> [] /\ ch "]" ∉ citekey.
Proof.
  intros Hcaps H. unfold citationPattern in H.
  rewrite m_Cat, m_Bol in H. destruct (atBol true s); [|discriminate].
  rewrite m_Cat, m_Star in H.
  apply repeat_Dot_sound in H as (dots & _ & r1 & Hr1 & H).
  rewrite m_Cat in H. apply m_Chr_sound in H as (r2 & Hr2 & H).
  rewrite m_Cat in H.
  apply m_Opt_Chr_sound in H as (second & r3 & Hsecond & Hr3 & H).
  rewrite m_Cat in H. apply m_Chr_sound in H as (r4 & Hr4 & H).
  rewrite m_Cat in H.
  apply m_Group_Plus_Class in H as (citekey & r5 & Hne & Hcls & Hr5 & H).
  rewrite m_Cat in H.
  eapply m_keepsCaps in H as (s6 & Hreach6 & Hc6 & H); [|reflexivity].
  rewrite m_Cat in H. apply m_Chr_sound in H as (r7 & Hr7 & H).
  eapply m_keepsCaps in H as (s8 & Hreach8 & Hc8 & H); [|reflexivity].
  assert (s8 = e) as -> by congruence. clear H.
  destruct (reach_suffix _ _ Hreach6) as [locator Hlocator].
  destruct (reach_suffix _ _ Hreach8) as [tail Htail].
  cbn [prev rest caps] in *.
  exists (dots ++ second), citekey, (locator ++ ch "]" :: tail).
  split; [|split; [|split; [|split]]].
  - rewrite Hr1, Hr2, Hr3, Hr4, Hr5, Hlocator, Hr7, Htail.
    destruct Hsecond as [->| ->]; cbn [app]; rewrite <- !app_assoc;
      cbn [app]; rewrite <- ?app_assoc; reflexivity.
  - apply elem_of_app. right. left.
  - rewrite Hc8, Hc6, Hcaps. reflexivity.
  - exact Hne.
  - intros Hin. rewrite Forall_forall in Hcls.
    specialize (Hcls _ Hin). unfold inClass in Hcls. cbn [existsb] in Hcls.
    rewrite N.eqb_refl in Hcls. discriminate.
Qed.

(** Where a successful [search] started: a state without captures over
    the same input. *)
Lemma search_start (multiline : bool) (r : regex) (after : list N) :
  forall before res e,
    search multiline r before after = Some (res, e) ->
    exists s,
      rev (prev s) ++ rest s = rev before ++ after /\
      caps s = [] /\
      m multiline r s Some = Some e /\
      res = Match (endIndex s) (consumed s e) (caps e).
Proof.
  induction after as [|c after IH]; intros before res e H; cbn [search] in H.
  - destruct (m multiline r (MState before [] []) Some) as [e'|] eqn:Hm;
      [|discriminate].
    simplify_eq. exists (MState before [] []). auto.
  - destruct (m multiline r (MState before (c :: after) []) Some)
      as [e'|] eqn:Hm.
    + simplify_eq. exists (MState before (c :: after) []). auto.
    + apply IH in H as (s & Hs & Hrest). exists s. split; [|exact Hrest].
      rewrite Hs. simpl. rewrite <- app_assoc. reflexivity.
Qed.

(** Every match [matchAll] returns is a run of the pattern from some
    position of the text, started without captures. *)
Lemma matchAllFrom_elem (multiline : bool) (r : regex) :
  forall fuel before after mr,
    mr ∈ matchAllFrom multiline r fuel before after ->
    exists s e,
      rev (prev s) ++ rest s = rev before ++ after /\
      caps s = [] /\
      m multiline r s Some = Some e /\
      mr = Match (endIndex s) (consumed s e) (caps e).
Proof.
  induction fuel as [|fuel IH]; intros before after mr Hin;
    cbn [matchAllFrom] in Hin; [inversion Hin|].
  destruct (search multiline r before after) as [[res e]|] eqn:Hs;
    [|inversion Hin].
  apply search_start in Hs as (s & Hcontent & Hcaps & Hm & Hres).
  apply elem_of_cons in Hin as [->|Hin]; [eauto 10|].
  assert (rev (prev e) ++ rest e = rev before ++ after) as He.
  { apply m_sound in Hm as (s' & [Hreach _] & Heq). simplify_eq.
    congruence. }
  destruct (matched res) as [|x xs]; [destruct (rest e) as [|c cs] eqn:Hr|].
  - inversion Hin.
  - apply IH in Hin as (s1 & e1 & H1 & Hrest). exists s1, e1.
    split; [|exact Hrest]. rewrite H1, <- He. simpl.
    rewrite <- app_assoc. reflexivity.
  - apply IH in Hin as (s1 & e1 & H1 & Hrest). exists s1, e1.
    split; [|exact Hrest]. congruence.
Qed.

Lemma matchAll_citationPattern_elem (content : jsstring) (mr : MatchResult) :
  mr ∈ matchAll true citationPattern content ->
  (exists before citekey after,
     matched mr = before ++ ch "[" :: ch "@" :: citekey ++ after /\
     ch "]" ∈ after /\
     capture 1 (captures mr) = Some citekey /\
     citekey <> [] /\ ch "]" ∉ citekey) /\
  (exists a b,
     content = a ++ matched mr ++ b /\ endsLine a /\ startsLine b).
Proof.
  intros Hin. apply matchAllFrom_elem in Hin as (s & e & Hs & Hcaps & Hm & ->).
  simpl in Hs. cbn [captures matched].
  assert (exists mid, rest s = mid ++ rest e /\ consumed s e = mid)
    as (mid & Hmid & Hconsumed).
  { destruct (m_sound true citationPattern s Some e Hm) as (s' & Hreach & Heq).
    assert (s' = e) as -> by congruence.
    destruct (reach_suffix _ _ Hreach) as [mid Hmid].
    pose proof (reach_length _ _ Hreach) as Hlen.
    exists mid. split; [exact Hmid|].
    unfold consumed. rewrite Hmid. rewrite Hmid, length_app in Hlen.
    replace (endIndex e - endIndex s) with (length mid) by lia.
    apply take_app_length. }
  rewrite Hconsumed. split.
  - destruct (citationPattern_captures s e Hcaps Hm)
      as (before & citekey & after & Hrest & Hclose & Hc & Hne & Hb).
    exists before, citekey, after.
    split; [|split; [exact Hclose|split; [|auto]]].
    + rewrite Hmid in Hrest. apply app_inv_tail in Hrest. exact Hrest.
    + rewrite Hc. cbn [capture Nat.eqb]. reflexivity.
  - assert (atBol true s = true) as Hbol.
    { destruct (atBol true s) eqn:Hb; [reflexivity|].
      rewrite m_startsWithBol in Hm by (reflexivity || exact Hb).
      discriminate. }
    apply m_endsWithEol in Hm as (s' & Hreach & Heol & Heq);
      [|reflexivity].
    assert (s' = e) as -> by congruence. clear Heq.
    exists (rev (prev s)), (rest e). split; [|split].
    + rewrite <- Hs, Hmid. reflexivity.
    + unfold atBol in Hbol. destruct (prev s) as [|c p]; [left; reflexivity|].
      right. exists (rev p), c. split; [reflexivity|]. exact Hbol.
    + unfold atEol in Heol. destruct (rest e) as [|c b]; [left; reflexivity|].
      right. exists c, b. split; [reflexivity|]. exact Heol.
Qed.

Lemma lineTerminators_app (a b : jsstring) :
  lineTerminators (a ++ b) = lineTerminators a + lineTerminators b.
Proof. induction a as [|c a IH]; simpl; [reflexivity|]. rewrite IH. lia. Qed.

(** Where a successful [search] for a pattern that begins with [^]
    started: at the start of a line, after skipping [skipped]. *)
Lemma search_anchored (r : regex) (after : list N) :
  startsWithBol r = true ->
  forall before res e,
    search true r before after = Some (res, e) ->
    exists skipped s,
      after = skipped ++ rest s /\
      prev s = rev skipped ++ before /\
      atBol true s = true /\
      m true r s Some = Some e.
Proof.
  intros Hbol.
  assert (forall s e, m true r s Some = Some e -> atBol true s = true)
    as Hstart.
  { intros s e Hm. destruct (atBol true s) eqn:Hb; [reflexivity|].
    rewrite m_startsWithBol in Hm by assumption. discriminate. }
  induction after as [|c after IH]; intros before res e H; cbn [search] in H.
  - destruct (m true r (MState before [] []) Some) as [e'|] eqn:Hm;
      [|discriminate].
    simplify_eq. exists [], (MState before [] []). eauto.
  - destruct (m true r (MState before (c :: after) []) Some) as [e'|] eqn:Hm.
    + simplify_eq. exists [], (MState before (c :: after) []). eauto.
    + apply IH in H as (skipped & s & Hafter & Hprev & Hb & Hm').
      exists (c :: skipped), s. split; [simpl; congruence|].
      split; [|auto]. rewrite Hprev. simpl. rewrite <- app_assoc.
      reflexivity.
Qed.

(** A match of [citationPattern] ends right after a code unit that is not
    a line terminator: the closing bracket or a code unit of the final
    [.*]. *)
Lemma citationPattern_end (s e : mstate) :
  m true citationPattern s Some = Some e ->
  exists c p, prev e = c :: p /\ isLineTerminator c = false.
Proof.
  intros H. unfold citationPattern in H.
  do 7 (rewrite m_Cat in H; apply m_sound in H as (? & _ & H)).
  rewrite m_Cat, m_Chr in H. revert H. unfold eat at 1.
  destruct (rest _) as [|c cs]; [discriminate|].
  destruct (N.eqb (ch "]") c) eqn:Hc; [|discriminate].
  apply N.eqb_eq in Hc. subst c. intros H.
  assert (exists s9 p,
            prev s9 = ch "]" :: p /\
            m true (Star true Dot +++ Eol) s9 Some = Some e)
    as (s9 & p & Hp & Hk).
  { rewrite m_Cat, m_Opt in H. cbv zeta in H.
    apply orElse_Some in H as [H|H].
    - rewrite m_Chr in H. unfold eat in H. cbn [rest prev caps] in H.
      destruct cs as [|c cs]; [discriminate|].
      destruct (N.eqb (ch "]") c) eqn:Hc; [|discriminate].
      apply N.eqb_eq in Hc. subst c.
      destruct (Nat.eqb _ _); [discriminate|].
      eexists _, _. split; [|exact H]. reflexivity.
    - eexists _, _. split; [|exact H]. reflexivity. }
  rewrite m_Cat, m_Star in Hk.
  apply repeat_Dot_sound in Hk as (eaten & Hline & after & _ & Hk).
  rewrite m_Eol in Hk. destruct (atEol true _); [|discriminate].
  simplify_eq. cbn [prev]. rewrite Hp.
  destruct (rev eaten) as [|c l] eqn:Hrev; [simpl; eauto|].
  exists c, (l ++ ch "]" :: p). split; [reflexivity|].
  unfold singleLine in Hline. rewrite Forall_forall in Hline.
  apply Hline. apply list_elem_of_In, in_rev. rewrite Hrev. left. reflexivity.
Qed.

(** From any position, [matchAllFrom] finds at most one match per line
    that starts at or after it. *)
Lemma matchAllFrom_citationPattern_length :
  forall fuel before after,
    length (matchAllFrom true citationPattern fuel before after) <=
    (if atBol true (MState before after []) then 1 else 0) +
    lineTerminators after.
Proof.
  induction fuel as [|fuel IH]; intros before after; cbn [matchAllFrom];
    [simpl; lia|].
  destruct (search true citationPattern before after) as [[res e]|] eqn:Hs;
    [|simpl; lia].
  apply (search_anchored citationPattern after eq_refl) in Hs
    as (skipped & s & Hafter & Hprev & Hbol & Hm).
  destruct (citationPattern_end s e Hm) as (c & p & Hp & Hc).
  destruct (m_sound true citationPattern s Some e Hm) as (s' & Hreach & Heq).
  assert (s' = e) as -> by congruence. clear Heq.
  destruct (reach_suffix _ _ Hreach) as [mid Hmid].
  assert (1 + lineTerminators (rest e) <=
          (if atBol true (MState before after []) then 1 else 0) +
          lineTerminators after) as Hbound.
  { destruct (atBol true (MState before after [])) eqn:Hb;
      rewrite Hafter, Hmid, !lineTerminators_app; [lia|].
    assert (1 <= lineTerminators skipped); [|lia].
    unfold atBol in Hbol, Hb. cbn [prev] in Hb. rewrite Hprev in Hbol.
    destruct (rev skipped) as [|x xs] eqn:Hrev.
    - cbn [app] in Hbol. congruence.
    - simpl in Hbol. rewrite <- (rev_involutive skipped), Hrev. simpl.
      rewrite lineTerminators_app. simpl. rewrite Hbol. lia. }
  cbn [length].
  assert (length
            match matched res, rest e with
            | [], [] => []
            | [], c0 :: cs =>
                matchAllFrom true citationPattern fuel (c0 :: prev e) cs
            | _ :: _, _ =>
                matchAllFrom true citationPattern fuel (prev e) (rest e)
            end <= lineTerminators (rest e)); [|lia].
  destruct (matched res) as [|x xs].
  - destruct (rest e) as [|c0 cs]; [simpl; lia|].
    etransitivity; [apply IH|]. unfold atBol. cbn [prev andb lineTerminators].
    lia.
  - etransitivity; [apply IH|]. unfold atBol. cbn [prev]. rewrite Hp, Hc.
    simpl. lia.
Qed.

(** ** Citation extraction, continued *)

(** X1: a reference "[@citekey]" on a line is found and looked up under
    exactly that citekey, whatever stands before it on the line (so also a
    second opening bracket) and after it (so also a second closing bracket),
    provided the citekey is non-empty and has no bracket, "#", "^" or line
    terminator, and no "[" follows the reference on the line: the result is
    the one occurrence made of what [entries[citekey]] gives and the whole
    line. *)
Theorem getCitations_resolves_reference (this : CitationPlugin)
    (lib : Library) (prefix citekey suffix : jsstring) :
  library this = Some lib ->
  singleLine prefix -> plainCitekey citekey ->
  singleLine suffix -> ch "[" ∉ suffix ->
  getCitations this (prefix ++ reference citekey ++ suffix) =
  Some [(Get (entries lib) citekey, prefix ++ reference citekey ++ suffix)].
Proof.
  intros Hlib Hprefix Hkey Hsuffix Hnob.
  rewrite (getCitations_loaded _ _ _ Hlib).
  rewrite (matchAll_reference prefix citekey suffix Hprefix Hkey Hsuffix Hnob).
  reflexivity.
Qed.

Lemma smith2020_plainCitekey : plainCitekey (js "smith2020").
Proof.
  split; [vm_compute; discriminate|].
  apply (bool_decide_unpack _). vm_compute. exact I.
Qed.

Lemma getCitations_resolves_reference_witness :
  getCitations samplePlugin
    (js "See [" ++ reference (js "smith2020") ++ js "] for details.") =
  Some [(Get (entries sampleLibrary) (js "smith2020"),
         js "See [" ++ reference (js "smith2020") ++ js "] for details.")].
Proof.
  apply (getCitations_resolves_reference samplePlugin sampleLibrary
           (js "See [") (js "smith2020") (js "] for details.")).
  - reflexivity.
  - unfold singleLine. apply (bool_decide_unpack _). vm_compute. exact I.
  - exact smith2020_plainCitekey.
  - unfold singleLine. apply (bool_decide_unpack _). vm_compute. exact I.
  - apply (bool_decide_unpack _). vm_compute. exact I.
Defined.

Lemma constructor_plainCitekey : plainCitekey (js "constructor").
Proof.
  split; [vm_compute; discriminate|].
  apply (bool_decide_unpack _). vm_compute. exact I.
Qed.

(** C6 (the code at the failing input): a reference to a citekey the
    library does not hold yields one occurrence, and nothing is thrown; its
    entry is [undefined] unless the citekey is the name of a property of
    [Object.prototype]: for "[[@constructor]]" the occurrence carries the
    inherited member [constructor], which is not an absent value. *)
Theorem getCitations_unresolved_citekey (this : CitationPlugin)
    (lib : Library) (prefix citekey suffix : jsstring) :
  library this = Some lib ->
  singleLine prefix -> plainCitekey citekey ->
  singleLine suffix -> ch "[" ∉ suffix ->
  entries lib !! citekey = None ->
  getCitations this (prefix ++ reference citekey ++ suffix) =
  Some [(if decide (citekey ∈ ObjectPrototype_properties)
         then Inherited citekey else Undefined,
         prefix ++ reference citekey ++ suffix)].
Proof.
  intros Hlib Hprefix Hkey Hsuffix Hnob Hnone.
  rewrite (getCitations_loaded _ _ _ Hlib).
  rewrite (matchAll_reference prefix citekey suffix Hprefix Hkey Hsuffix Hnob).
  cbn [map]. unfold citationOfMatch.
  cbn [captures capture matched Nat.eqb ToString]. unfold Get.
  rewrite Hnone. reflexivity.
Qed.

Lemma getCitations_unresolved_citekey_witness :
  getCitations samplePlugin (js "[" ++ reference (js "constructor") ++ js "]")
  = Some [(Inherited (js "constructor"), js "[[@constructor]]")].
Proof.
  apply (getCitations_unresolved_citekey samplePlugin sampleLibrary
           (js "[") (js "constructor") (js "]")).
  - reflexivity.
  - unfold singleLine. apply (bool_decide_unpack _). vm_compute. exact I.
  - exact constructor_plainCitekey.
  - unfold singleLine. apply (bool_decide_unpack _). vm_compute. exact I.
  - apply (bool_decide_unpack _). vm_compute. exact I.
  - reflexivity.
Defined.

(** X2: a locator after the citekey ("#" or "^" marks followed by a
    heading or block name, as in "[[@smith2020#Summary]]") is not part of
    the citekey: the reference is looked up under the citekey alone, and the
    occurrence carries the whole line. *)
Theorem getCitations_drops_locator (this : CitationPlugin) (lib : Library)
    (prefix citekey marks locator suffix : jsstring) :
  library this = Some lib ->
  singleLine prefix -> plainCitekey citekey -> locatorMarks marks ->
  plainCitekey locator -> singleLine suffix -> ch "[" ∉ suffix ->
  getCitations this
    (prefix ++ locatedReference citekey marks locator ++ suffix) =
  Some [(Get (entries lib) citekey,
         prefix ++ locatedReference citekey marks locator ++ suffix)].
Proof.
  intros Hlib Hprefix Hkey Hmarks Hloc Hsuffix Hnob.
  rewrite (getCitations_loaded _ _ _ Hlib).
  rewrite (matchAll_locatedReference prefix citekey marks locator suffix
             Hprefix Hkey Hmarks Hloc Hsuffix Hnob).
  reflexivity.
Qed.

Lemma getCitations_drops_locator_witness :
  getCitations samplePlugin
    (js "See [" ++
     locatedReference (js "smith2020") (js "#") (js "Summary") ++
     js "] for details.") =
  Some [(Get (entries sampleLibrary) (js "smith2020"),
         js "See [" ++
         locatedReference (js "smith2020") (js "#") (js "Summary") ++
         js "] for details.")].
Proof.
  apply (getCitations_drops_locator samplePlugin sampleLibrary
           (js "See [") (js "smith2020") (js "#") (js "Summary")
           (js "] for details.")).
  - reflexivity.
  - unfold singleLine. apply (bool_decide_unpack _). vm_compute. exact I.
  - exact smith2020_plainCitekey.
  - split; [vm_compute; discriminate|].
    apply (bool_decide_unpack _). vm_compute. exact I.
  - split; [vm_compute; discriminate|].
    apply (bool_decide_unpack _). vm_compute. exact I.
  - unfold singleLine. apply (bool_decide_unpack _). vm_compute. exact I.
  - apply (bool_decide_unpack _). vm_compute. exact I.
Defined.

(** X3: a text that lacks "[", or lacks "@", or lacks "]" holds no
    citation: with a library loaded [getCitations] returns the empty
    array. *)
Theorem getCitations_needs_reference_marks (this : CitationPlugin)
    (lib : Library) (content : jsstring) (c : N) :
  library this = Some lib ->
  c = ch "[" \/ c = ch "@" \/ c = ch "]" ->
  c ∉ content ->
  getCitations this content = Some [].
Proof.
  intros Hlib Hc Hnot. rewrite (getCitations_loaded _ _ _ Hlib).
  unfold matchAll. cbn [matchAllFrom].
  rewrite (search_mustEat true c citationPattern content
             (citationPattern_mustEat c Hc) Hnot).
  reflexivity.
Qed.

Lemma getCitations_needs_reference_marks_witness :
  getCitations samplePlugin (js "mail smith [at] example.org") = Some [].
Proof.
  apply (getCitations_needs_reference_marks samplePlugin sampleLibrary
           (js "mail smith [at] example.org") (ch "@")).
  - reflexivity.
  - right. left. reflexivity.
  - apply (bool_decide_unpack _). vm_compute. exact I.
Defined.



(** X5: the text that comes with each occurrence is made of whole lines
    of the content: it begins at the start of the content or right after a
    line terminator, and ends at the end of the content or right before a
    line terminator. *)
Theorem getCitations_whole_lines (this : CitationPlugin) (lib : Library)
    (content : jsstring) (occurrences : list Citation) :
  library this = Some lib ->
  getCitations this content = Some occurrences ->
  Forall (fun occ =>
            exists a b,
              content = a ++ snd occ ++ b /\ endsLine a /\ startsLine b)
         occurrences.
Proof.
  intros Hlib H. rewrite (getCitations_loaded _ _ _ Hlib) in H.
  simplify_eq. apply Forall_forall. intros occ Hocc.
  apply list_elem_of_fmap in Hocc as (mr & -> & Hmr).
  exact (proj2 (matchAll_citationPattern_elem content mr Hmr)).
Qed.

Lemma getCitations_whole_lines_witness :
  Forall (fun occ =>
            exists a b,
              twoLines = a ++ snd occ ++ b /\ endsLine a /\ startsLine b)
    [(Own (EntryCSLAdapter sampleRecord), smithLine)].
Proof.
  apply (getCitations_whole_lines samplePlugin sampleLibrary twoLines).
  - reflexivity.
  - vm_compute. reflexivity.
Defined.

(** X6: [getCitations] never returns more occurrences than the content
    has lines (one more than its line terminators), however many references
    the lines hold. *)
Theorem getCitations_at_most_one_per_line (this : CitationPlugin)
    (content : jsstring) (occurrences : list Citation) :
  getCitations this content = Some occurrences ->
  length occurrences <= 1 + lineTerminators content.
Proof.
  unfold getCitations. destruct (library this) as [lib|]; [|discriminate].
  cbv zeta. intros H. simplify_eq. rewrite length_map. unfold matchAll.
  apply (matchAllFrom_citationPattern_length _ [] content).
Qed.

Lemma getCitations_at_most_one_per_line_witness :
  length [(Undefined, agreeLine);
          (Own (EntryCSLAdapter sampleRecord), smithLine)]
    <= 1 + lineTerminators threeReferences.
Proof.
  apply (getCitations_at_most_one_per_line samplePlugin threeReferences).
  vm_compute. reflexivity.
Defined.

(** ** Building the library, continued *)

Lemma fromEntries_last (idKey : jsstring) (adapter : EntryData -> Entry)
    (batch : list EntryData) :
  forall (m0 : gmap jsstring Entry) (k : jsstring),
    fold_left (fun o kv => <[kv.1 := kv.2]> o)
      (map (fun e => (keyOf idKey e, adapter e)) batch) m0 !! k =
    match last (filter (fun e => keyOf idKey e = k) batch) with
    | Some e => Some (adapter e)
    | None => m0 !! k
    end.
Proof.
  induction batch as [|e batch IH]; intros m0 k; simpl; [reflexivity|].
  rewrite IH, filter_cons. destruct (decide (keyOf idKey e = k)) as [<-|Hne].
  - rewrite last_cons. destruct (last _); [reflexivity|].
    apply lookup_insert_eq.
  - destruct (last _); [reflexivity|]. apply lookup_insert_ne. exact Hne.
Qed.

Lemma fold_insert_dom {V : Type} (pairs : list (jsstring * V)) :
  forall (m0 : gmap jsstring V),
    dom (fold_left (fun o kv => <[kv.1 := kv.2]> o) pairs m0) =
    list_to_set (pairs.*1) ∪ dom m0.
Proof.
  induction pairs as [|[k0 v0] ps IH]; intros m0; simpl.
  - rewrite union_empty_l_L. reflexivity.
  - rewrite IH, dom_insert_L. apply set_eq. intros x.
    rewrite !elem_of_union, !elem_of_list_to_set, elem_of_singleton.
    tauto.
Qed.

Lemma size_list_to_set_remove_dups (l : list jsstring) :
  size (list_to_set l : gset jsstring) = length (remove_dups l).
Proof.
  rewrite <- (size_list_to_set (C:=gset jsstring) (remove_dups l))
    by apply NoDup_remove_dups.
  f_equal. apply set_eq. intros x.
  rewrite !elem_of_list_to_set, elem_of_remove_dups. reflexivity.
Qed.

(** X7: when records of a batch share a citekey the library keeps the
    last of them: for biblatex and csl-json the entry under a citekey is the
    adapter of the last record filed under it (a record without the id
    field is filed under "undefined"), and the library has as many entries
    as the batch has distinct citekeys. *)
Theorem buildLibrary_last_record_wins
    (format idKey : jsstring) (adapter : EntryData -> Entry)
    (batch : list EntryData) :
  (format = js "biblatex" /\
     adapter = EntryBibLaTeXAdapter /\ idKey = js "key") \/
  (format = js "csl-json" /\
     adapter = EntryCSLAdapter /\ idKey = js "id") ->
  exists lib,
    buildLibrary format batch = Some lib /\
    (forall k,
       entries lib !! k =
       adapter <$> last (filter (fun e => keyOf idKey e = k) batch)) /\
    size (entries lib) = length (remove_dups (map (keyOf idKey) batch)).
Proof.
  intros Hfmt.
  assert (selectAdapter format = Some (adapter, idKey)) as Hsel.
  { destruct Hfmt as [(-> & -> & ->)|(-> & -> & ->)]; reflexivity. }
  unfold buildLibrary. rewrite Hsel. eexists. split; [reflexivity|].
  cbn [entries]. unfold fromEntries. split.
  - intros k.
    change (fun e : EntryData => (ToString (e !! idKey), adapter e))
      with (fun e : EntryData => (keyOf idKey e, adapter e)).
    rewrite fromEntries_last, lookup_empty.
    destruct (last _); reflexivity.
  - rewrite <- size_dom, fold_insert_dom, dom_empty_L, union_empty_r_L.
    rewrite <- list_fmap_compose.
    apply size_list_to_set_remove_dups.
Qed.

Lemma buildLibrary_last_record_wins_witness :
  exists lib,
    buildLibrary (js "csl-json") [sampleRecord; otherRecord; revisedRecord]
      = Some lib /\
    (forall k,
       entries lib !! k =
       EntryCSLAdapter <$>
         last (filter (fun e => keyOf (js "id") e = k)
                 [sampleRecord; otherRecord; revisedRecord])) /\
    size (entries lib) =
      length (remove_dups
                (map (keyOf (js "id"))
                   [sampleRecord; otherRecord; revisedRecord])).
Proof.
  apply (buildLibrary_last_record_wins (js "csl-json") (js "id")
           EntryCSLAdapter [sampleRecord; otherRecord; revisedRecord]).
  right. repeat split; reflexivity.
Defined.

(** X8: with an export format other than biblatex and csl-json the
    [switch] selects no adapter. When the parse job of a call delivers a
    non-empty batch the second [.then] throws, so the call ends in the
    [.catch]: it resolves with [null], the notice is shown and the library
    stays as it was; an empty batch is stored as an empty library. *)
Theorem loadLibrary_unknown_format (w : World) (i : nat)
    (batch : list EntryData) :
  citationExportFormat (settings (plugin w)) <> js "biblatex" ->
  citationExportFormat (settings (plugin w)) <> js "csl-json" ->
  calls w !! i = Some AwaitingWorker ->
  exists w',
    step w (WorkerResolved i batch) = Some w' /\
    match batch with
    | [] =>
        calls w' !! i = Some (Resolved (ResLibrary (mkLibrary ∅))) /\
        library (plugin w') = Some (mkLibrary ∅) /\
        loadErrorNotifier_shown (plugin w') =
          loadErrorNotifier_shown (plugin w)
    | _ :: _ =>
        calls w' !! i = Some (Resolved ResNull) /\
        library (plugin w') = library (plugin w) /\
        loadErrorNotifier_shown (plugin w') = true
    end.
Proof.
  intros Hb Hc Hi. cbn [step]. rewrite Hi.
  unfold loadLibrary_onEntries, buildLibrary, selectAdapter.
  cbn [WorkerManager_settle setBlocked settings].
  rewrite !decide_False by assumption.
  destruct batch as [|e batch]; eexists; (split; [reflexivity|]);
    cbn; rewrite (lookup_setCall _ _ _ _ _ Hi), decide_True by reflexivity;
    auto.
Qed.

Lemma loadLibrary_unknown_format_witness :
  exists w',
    step (mkWorld (mkPlugin misconfiguredSettings None None true false)
            [AwaitingWorker])
      (WorkerResolved 0 [sampleRecord]) = Some w' /\
    calls w' !! 0 = Some (Resolved ResNull) /\
    library (plugin w') = None /\
    loadErrorNotifier_shown (plugin w') = true.
Proof.
  apply (loadLibrary_unknown_format
           (mkWorld (mkPlugin misconfiguredSettings None None true false)
              [AwaitingWorker]) 0 [sampleRecord]).
  - vm_compute. discriminate.
  - vm_compute. discriminate.
  - reflexivity.
Defined.

(** ** From the worker's batch to a citation *)

(** X9: once the parse job of a call has delivered a batch, a reference
    "[@citekey]" in a text is resolved by [getCitations] to the adapter of
    the last record of that batch filed under the citekey; when the batch
    has no such record the occurrence carries [undefined], or the member of
    [Object.prototype] the citekey happens to name. *)
Theorem loaded_record_is_cited (w : World) (i : nat)
    (batch : list EntryData) (idKey : jsstring) (adapter : EntryData -> Entry)
    (prefix citekey suffix : jsstring) :
  calls w !! i = Some AwaitingWorker ->
  selectAdapter (citationExportFormat (settings (plugin w))) =
    Some (adapter, idKey) ->
  singleLine prefix -> plainCitekey citekey ->
  singleLine suffix -> ch "[" ∉ suffix ->
  exists w',
    step w (WorkerResolved i batch) = Some w' /\
    getCitations (plugin w') (prefix ++ reference citekey ++ suffix) =
    Some [(match last (filter (fun e => keyOf idKey e = citekey) batch) with
           | Some e => Own (adapter e)
           | None =>
               if decide (citekey ∈ ObjectPrototype_properties)
               then Inherited citekey else Undefined
           end,
           prefix ++ reference citekey ++ suffix)].
Proof.
  intros Hi Hsel Hprefix Hkey Hsuffix Hnob.
  cbn [step]. rewrite Hi. unfold loadLibrary_onEntries, buildLibrary.
  cbn [WorkerManager_settle setBlocked settings]. rewrite Hsel.
  eexists. split; [reflexivity|].
  erewrite getCitations_loaded by reflexivity.
  rewrite (matchAll_reference prefix citekey suffix Hprefix Hkey Hsuffix Hnob).
  cbn [map]. unfold citationOfMatch.
  cbn [captures capture matched Nat.eqb ToString entries].
  unfold Get, fromEntries.
  change (fun e : EntryData => (ToString (e !! idKey), adapter e))
    with (fun e : EntryData => (keyOf idKey e, adapter e)).
  rewrite fromEntries_last, lookup_empty. destruct (last _); reflexivity.
Qed.

Lemma loaded_record_is_cited_witness :
  exists w',
    step blockedWorld
      (WorkerResolved 0 [sampleRecord; otherRecord; revisedRecord]) = Some w' /\
    getCitations (plugin w')
      (js "See [" ++ reference (js "smith2020") ++ js "] for details.") =
    Some [(Own (EntryCSLAdapter revisedRecord),
           js "See [" ++ reference (js "smith2020") ++ js "] for details.")].
Proof.
  apply (loaded_record_is_cited blockedWorld 0
           [sampleRecord; otherRecord; revisedRecord] (js "id")
           EntryCSLAdapter (js "See [") (js "smith2020")
           (js "] for details.")).
  - reflexivity.
  - reflexivity.
  - unfold singleLine. apply (bool_decide_unpack _). vm_compute. exact I.
  - exact smith2020_plainCitekey.
  - unfold singleLine. apply (bool_decide_unpack _). vm_compute. exact I.
  - apply (bool_decide_unpack _). vm_compute. exact I.
Defined.

(** ** Loading the library, continued *)

Lemma step_serviceInSync (w w' : World) (ev : Event) :
  serviceInSync (plugin w) -> step w ev = Some w' ->
  serviceInSync (plugin w').
Proof.
  intros Hs H lib. destruct ev; step_inv H; try discriminate; try apply Hs.
  intros; simplify_eq; reflexivity.
Qed.

Lemma run_serviceInSync (evs : list Event) : forall (w w' : World),
  serviceInSync (plugin w) -> run w evs = Some w' ->
  serviceInSync (plugin w').
Proof.
  induction evs as [|ev evs IH]; intros w w' Hw Hrun; simpl in Hrun.
  - simplify_eq. exact Hw.
  - destruct (step w ev) as [w1|] eqn:Hstep; [|discriminate].
    eapply IH; [|exact Hrun]. eapply step_serviceInSync; eauto.
Qed.

(** X10: in every state reached from start-up, whenever the plugin holds
    a library the citation service holds the same one; and a call of
    [loadLibrary], which unloads the plugin's library, leaves the one of the
    citation service in place. *)
Theorem citationService_follows_library
    (s : CitationsPluginSettings) (evs : list Event) (w : World) :
  run (initialWorld s) evs = Some w ->
  (forall lib,
     library (plugin w) = Some lib ->
     citationService_library (plugin w) = Some lib) /\
  (forall w1,
     step w Call = Some w1 ->
     citationService_library (plugin w1) = citationService_library (plugin w)).
Proof.
  intros Hrun. split.
  - apply (run_serviceInSync evs (initialWorld s) w); [|exact Hrun].
    intros lib H. discriminate.
  - intros w1 H. step_inv H; reflexivity.
Qed.

Lemma citationService_follows_library_witness :
  (forall lib,
     library (plugin loadedWorld) = Some lib ->
     citationService_library (plugin loadedWorld) = Some lib) /\
  (forall w1,
     step loadedWorld Call = Some w1 ->
     citationService_library (plugin w1) =
     citationService_library (plugin loadedWorld)).
Proof.
  apply (citationService_follows_library sampleSettings
           [Call; ReadResolved 0 (js "[]"); WorkerResolved 0 [sampleRecord]]
           loadedWorld).
  reflexivity.
Defined.

(** X11: in every state reached from start-up, [isLibraryLoading] is true
    exactly when a call of [loadLibrary] has its parse job on the worker (a
    call still reading the file does not count), and at most one call has;
    the channel of the [WorkerManager] is as the spec describes it. *)
Theorem isLibraryLoading_iff_on_worker
    (s : CitationsPluginSettings) (evs : list Event) (w : World) :
  run (initialWorld s) evs = Some w ->
  (isLibraryLoading (plugin w) = true <->
     exists i, calls w !! i = Some AwaitingWorker) /\
  (forall i j,
     calls w !! i = Some AwaitingWorker ->
     calls w !! j = Some AwaitingWorker -> i = j).
Proof.
  intros Hrun.
  exact (run_consistent evs (initialWorld s) w (consistent_initial s) Hrun).
Qed.

Lemma isLibraryLoading_iff_on_worker_witness :
  (isLibraryLoading (plugin blockedWorld) = true <->
     exists i, calls blockedWorld !! i = Some AwaitingWorker) /\
  (forall i j,
     calls blockedWorld !! i = Some AwaitingWorker ->
     calls blockedWorld !! j = Some AwaitingWorker -> i = j).
Proof.
  apply (isLibraryLoading_iff_on_worker sampleSettings
           [Call; ReadResolved 0 (js "[]"); Call] blockedWorld).
  reflexivity.
Defined.

Lemma step_without_path (w w' : World) (ev : Event) :
  citationExportPath (settings (plugin w)) = [] ->
  quiescent w -> step w ev = Some w' ->
  ev = Call /\ plugin w' = plugin w /\
  calls w' = calls w ++ [Resolved ResUndefined].
Proof.
  intros Hpath Hq H.
  destruct ev; simpl in H;
    try (destruct (calls w !! i) as [c|] eqn:Hi; [|discriminate];
         destruct (Hq i c Hi) as [v ->]; discriminate).
  unfold loadLibrary_call in H. rewrite Hpath in H. simplify_eq. auto.
Qed.

(** X12: without an export path [loadLibrary] does nothing: from a state
    with no call in flight, whatever sequence of events occurs, the plugin
    stays as it is (the library is not unloaded, no notice is shown) and
    every event is a call that resolves at once with [undefined]. *)
Theorem loadLibrary_without_path (w w' : World) (evs : list Event) :
  citationExportPath (settings (plugin w)) = [] ->
  quiescent w -> run w evs = Some w' ->
  plugin w' = plugin w /\
  calls w' = calls w ++ map (fun _ => Resolved ResUndefined) evs.
Proof.
  revert w. induction evs as [|ev evs IH]; intros w Hpath Hq Hrun;
    simpl in Hrun.
  - simplify_eq. rewrite app_nil_r. auto.
  - destruct (step w ev) as [w1|] eqn:Hstep; [|discriminate].
    destruct (step_without_path _ _ _ Hpath Hq Hstep) as (-> & Hp & Hc).
    destruct (IH w1) as [Hp' Hc']; [congruence| |exact Hrun|].
    + intros i c. rewrite Hc. intros Hi.
      apply lookup_app_Some in Hi as [Hi|[_ Hi]]; [eauto|].
      apply list_lookup_singleton_Some in Hi as [_ <-]. eauto.
    + split; [congruence|]. rewrite Hc', Hc, <- app_assoc. reflexivity.
Qed.

Lemma loadLibrary_without_path_witness :
  plugin (mkWorld (plugin (initialWorld pathlessSettings))
            [Resolved ResUndefined; Resolved ResUndefined])
    = plugin (initialWorld pathlessSettings) /\
  calls (mkWorld (plugin (initialWorld pathlessSettings))
           [Resolved ResUndefined; Resolved ResUndefined])
    = calls (initialWorld pathlessSettings) ++
      map (fun _ => Resolved ResUndefined) [Call; Call].
Proof.
  apply (loadLibrary_without_path (initialWorld pathlessSettings)
           (mkWorld (plugin (initialWorld pathlessSettings))
              [Resolved ResUndefined; Resolved ResUndefined])
           [Call; Call]).
  - reflexivity.
  - intros i c H. simpl in H. rewrite lookup_nil in H. discriminate.
  - reflexivity.
Defined.

(** ** Citekey functions *)

Lemma run_library_unloaded (evs : list Event) (w w' : World) :
  library (plugin w) = None ->
  run w evs = Some w' ->
  (forall i batch, ~ In (WorkerResolved i batch) evs) ->
  library (plugin w') = None.
Proof.
  intros Hnone Hrun Hno.
  destruct (run_library evs w w' Hrun)
    as [H | [H | (i & batch & lib & Hin & _)]]; [congruence|exact H|].
  exfalso. exact (Hno i batch Hin).
Qed.

(** X13: from the moment a reload begins until a worker result arrives,
    the functions that render a template for a citekey throw, for every
    citekey: [getTitleForCitekey], [insertLiteratureNoteContent] and
    [insertMarkdownCitation] (primary and alternative) call a method on
    [this.library], which the reload has set to [null]. *)
Theorem citekey_functions_throw_during_reload
    (vars : Library -> jsstring -> option TemplateVariables)
    (sanitize : jsstring -> jsstring)
    (w0 w1 w : World) (evs : list Event)
    (citekey : jsstring) (alternative : bool) :
  citationExportPath (settings (plugin w0)) <> [] ->
  step w0 Call = Some w1 ->
  run w1 evs = Some w ->
  (forall i batch, ~ In (WorkerResolved i batch) evs) ->
  getTitleForCitekey vars sanitize (plugin w) citekey = None /\
  insertLiteratureNoteContent vars (plugin w) citekey = None /\
  insertMarkdownCitation vars (plugin w) citekey alternative = None.
Proof.
  intros Hpath Hcall Hrun Hno.
  destruct (call_unloads _ _ Hpath Hcall) as (Hnone & _ & _).
  pose proof (run_library_unloaded evs w1 w Hnone Hrun Hno) as Hlib.
  assert (forall template,
            renderForCitekey vars template (plugin w) citekey = None) as Hr
    by (intros; unfold renderForCitekey; rewrite Hlib; reflexivity).
  unfold getTitleForCitekey, insertLiteratureNoteContent,
    insertMarkdownCitation, getInitialContentForCitekey,
    getAlternativeMarkdownCitationForCitekey, getMarkdownCitationForCitekey.
  destruct alternative; rewrite !Hr; repeat split; reflexivity.
Qed.

Lemma citekey_functions_throw_during_reload_witness :
  getTitleForCitekey (fun _ _ => Some ∅) (fun title => title)
    (plugin reparsingWorld) (js "smith2020") = None /\
  insertLiteratureNoteContent (fun _ _ => Some ∅)
    (plugin reparsingWorld) (js "smith2020") = None /\
  insertMarkdownCitation (fun _ _ => Some ∅)
    (plugin reparsingWorld) (js "smith2020") true = None.
Proof.
  apply (citekey_functions_throw_during_reload
           (fun _ _ => Some ∅) (fun title => title)
           loadedWorld reloadingWorld reparsingWorld
           [ReadResolved 1 (js "[]")] (js "smith2020") true).
  - vm_compute. discriminate.
  - reflexivity.
  - reflexivity.
  - intros i batch [H|[]]. discriminate.
Defined.

(** ** Preview post-processing, continued *)

Lemma citesEntry_resolves (lib : Library) (link : HTMLAnchorElement)
    (citekey : jsstring) :
  citesEntry lib link citekey -> resolves lib link citekey.
Proof.
  intros (Hne & Hline & Hpath & [entry Hentry]).
  repeat split; try assumption. unfold Get. rewrite Hentry. discriminate.
Qed.

Lemma processLink_resolved (getCitation : jsstring -> bool -> jsstring)
    (reserialize : jsstring -> jsstring)
    (lib : Library) (link : HTMLAnchorElement) (citekey : jsstring) :
  resolves lib link citekey ->
  processLink getCitation reserialize lib (Anchor link) =
  if includes (getCitation citekey true) NO_PRINTED_FORM then Anchor link
  else Anchor (addClass (js "citation-link")
         (setInnerHTML reserialize
            (replace (innerHTML link) (ch "@" :: citekey)
               (getCitation citekey true)) link)).
Proof.
  intros (Hne & Hline & Hpath & Hentry).
  assert (match_ false pathnamePattern (pathname link) =
          Some (Match 0 (pathname link)
                  [(1, ch "@" :: citekey); (2, citekey)])) as Hm.
  { apply pathnamePattern_spec. exists citekey. auto. }
  unfold processLink. rewrite Hm. cbv zeta.
  cbn [captures capture Nat.eqb ToString].
  destruct (Get (entries lib) citekey); [reflexivity|reflexivity|].
  contradiction.
Qed.

Lemma processLink_unresolved (getCitation : jsstring -> bool -> jsstring)
    (reserialize : jsstring -> jsstring) (lib : Library) (el : Element) :
  (forall link citekey, el = Anchor link -> ~ resolves lib link citekey) ->
  processLink getCitation reserialize lib el = el.
Proof.
  intros Hnot. destruct el as [link|]; [|reflexivity]. unfold processLink.
  destruct (match_ false pathnamePattern (pathname link)) as [mr|] eqn:Hm;
    [|reflexivity].
  apply pathnamePattern_spec in Hm as (citekey & Hne & Hline & Hpath & ->).
  cbv zeta. cbn [captures capture Nat.eqb ToString].
  destruct (Get (entries lib) citekey) eqn:Hentry; [| |reflexivity];
    exfalso; apply (Hnot link citekey eq_refl);
    repeat split; try assumption; rewrite Hentry; discriminate.
Qed.

(** X14: an element that the post-processor does not take for a citation
    (not a link, or a link whose pathname is not "/@" followed by a citekey,
    or one whose citekey reads as [undefined] on the entries object) comes
    out of [postProcessMarkdown] exactly as it went in. *)
Theorem postProcessMarkdown_leaves_other_elements
    (getCitation : jsstring -> bool -> jsstring)
    (reserialize : jsstring -> jsstring)
    (this : CitationPlugin) (selected : list Element) (i : nat)
    (el : Element) :
  selected !! i = Some el ->
  (forall lib link citekey,
     library this = Some lib -> el = Anchor link ->
     ~ resolves lib link citekey) ->
  postProcessMarkdown getCitation reserialize this selected !! i = Some el.
Proof.
  intros Hi Hnot. unfold postProcessMarkdown.
  destruct (library this) as [lib|] eqn:Hlib; [|exact Hi].
  rewrite list_lookup_fmap, Hi. cbn [fmap option_fmap option_map]. f_equal.
  apply processLink_unresolved. intros link citekey. apply Hnot. reflexivity.
Qed.

Lemma postProcessMarkdown_leaves_other_elements_witness :
  postProcessMarkdown (fun _ _ => js "(Smith 2020)") (fun html => html)
    samplePlugin [Anchor unknownLink; Anchor sampleLink] !! 0
  = Some (Anchor unknownLink).
Proof.
  apply (postProcessMarkdown_leaves_other_elements
           (fun _ _ => js "(Smith 2020)") (fun html => html) samplePlugin
           [Anchor unknownLink; Anchor sampleLink] 0 (Anchor unknownLink)).
  - reflexivity.
  - intros lib link citekey Hlib Heq (_ & _ & Hpath & Hentry).
    injection Heq as <-. injection Hlib as <-.
    vm_compute in Hpath. injection Hpath as <-.
    apply Hentry. vm_compute. reflexivity.
Defined.

(** X15: [postProcessMarkdown] neither drops nor adds elements, a link
    stays a link with the pathname it had, it keeps every class it had, and
    the only class it can gain is citation-link. *)
Theorem postProcessMarkdown_keeps_links
    (getCitation : jsstring -> bool -> jsstring)
    (reserialize : jsstring -> jsstring)
    (this : CitationPlugin) (selected : list Element) (i : nat)
    (link : HTMLAnchorElement) :
  selected !! i = Some (Anchor link) ->
  length (postProcessMarkdown getCitation reserialize this selected)
    = length selected /\
  exists link',
    postProcessMarkdown getCitation reserialize this selected !! i
      = Some (Anchor link') /\
    pathname link' = pathname link /\
    (forall cls, cls ∈ classList link -> cls ∈ classList link') /\
    (forall cls, cls ∈ classList link' ->
       cls ∈ classList link \/ cls = js "citation-link").
Proof.
  intros Hi. unfold postProcessMarkdown.
  destruct (library this) as [lib|] eqn:Hlib.
  2:{ split; [reflexivity|]. exists link. auto. }
  split; [apply length_map|].
  rewrite list_lookup_fmap, Hi. cbn [fmap option_fmap option_map].
  unfold processLink.
  destruct (match_ false pathnamePattern (pathname link)) as [mr|];
    [|exists link; auto].
  cbv zeta. destruct (ToBoolean _); [|exists link; auto].
  destruct (includes _ _); [exists link; auto|].
  eexists. split; [reflexivity|]. unfold addClass, setInnerHTML.
  cbn [pathname classList]. split; [reflexivity|].
  destruct (decide (js "citation-link" ∈ classList link)); [auto|].
  split; intros cls; rewrite elem_of_app, list_elem_of_singleton; auto.
Qed.

Lemma postProcessMarkdown_keeps_links_witness :
  length (postProcessMarkdown (fun _ _ => js "(Smith 2020)")
            (fun html => html) samplePlugin
            [Anchor noteLink; Anchor sampleLink]) =
    length [Anchor noteLink; Anchor sampleLink] /\
  exists link',
    postProcessMarkdown (fun _ _ => js "(Smith 2020)") (fun html => html)
      samplePlugin [Anchor noteLink; Anchor sampleLink] !! 1
      = Some (Anchor link') /\
    pathname link' = pathname sampleLink /\
    (forall cls, cls ∈ classList sampleLink -> cls ∈ classList link') /\
    (forall cls, cls ∈ classList link' ->
       cls ∈ classList sampleLink \/ cls = js "citation-link").
Proof.
  apply (postProcessMarkdown_keeps_links
           (fun _ _ => js "(Smith 2020)") (fun html => html) samplePlugin
           [Anchor noteLink; Anchor sampleLink] 1 sampleLink).
  reflexivity.
Defined.

Lemma sampleLink_citesEntry (link : HTMLAnchorElement) :
  pathname link = js "/@smith2020" ->
  citesEntry sampleLibrary link (js "smith2020").
Proof.
  intros Hpath. split; [vm_compute; discriminate|]. split.
  { unfold singleLine. apply (bool_decide_unpack _). vm_compute. exact I. }
  split; [exact Hpath|]. eexists. reflexivity.
Qed.

Lemma splitFirst_prefix (needle after : jsstring) :
  splitFirst needle (needle ++ after) = Some ([], after).
Proof.
  assert (startsWith needle (needle ++ after) = true) as Hs
    by (apply startsWith_spec; eauto).
  destruct (needle ++ after) as [|c s] eqn:Heq; simpl; simpl in Hs;
    rewrite Hs; rewrite <- Heq, drop_app_length; reflexivity.
Qed.

Lemma splitFirst_absent (needle s : jsstring) :
  (forall a b, s <> a ++ needle ++ b) -> splitFirst needle s = None.
Proof.
  intros Habs. destruct (splitFirst needle s) as [[a b]|] eqn:H;
    [|reflexivity].
  exfalso. exact (Habs a b (splitFirst_Some _ _ _ _ H)).
Qed.

(** [splitFirst] finds the leftmost occurrence. *)
Lemma splitFirst_leftmost (needle : jsstring) :
  forall s before after a b,
    splitFirst needle s = Some (before, after) ->
    s = a ++ needle ++ b -> length before <= length a.
Proof.
  induction s as [|c s IH]; intros before after a b H Heq; simpl in H.
  - destruct (startsWith needle []); [|discriminate]. simplify_eq.
    simpl. lia.
  - destruct (startsWith needle (c :: s)) eqn:Hs.
    + simplify_eq. simpl. lia.
    + destruct (splitFirst needle s) as [[b' a']|] eqn:Hrec; [|discriminate].
      simplify_eq. destruct a as [|x a].
      * simpl in Heq.
        assert (startsWith needle (c :: s) = true)
          by (apply startsWith_spec; eauto).
        congruence.
      * simpl in Heq. simplify_eq. simpl.
        specialize (IH b' after a b eq_refl eq_refl). lia.
Qed.

Lemma splitFirst_firstOccurrence (needle s before after : jsstring) :
  firstOccurrence needle s before after ->
  splitFirst needle s = Some (before, after).
Proof.
  intros [Heq Hmin].
  destruct (splitFirst needle s) as [[b0 a0]|] eqn:H.
  - pose proof (splitFirst_Some _ _ _ _ H) as Heq0.
    pose proof (splitFirst_leftmost _ _ _ _ _ _ H Heq) as Hle.
    pose proof (Hmin _ _ Heq0) as Hge.
    rewrite Heq in Heq0.
    apply app_inj_1 in Heq0 as [-> Htail]; [|lia].
    apply app_inv_head in Htail. subst a0. reflexivity.
  - exfalso. exact (splitFirst_None _ _ H _ _ Heq).
Qed.

(** C10 (as the code has it): for a link to "/@citekey" whose citekey the
    entries object resolves, a citation that contains NO_PRINTED_FORM leaves
    the link exactly as it was, so the sentinel never reaches the output.
    A citation that does not contain it marks the link as a citation link
    and is put in the place of the first "@citekey" of the link's content
    when the content holds one; when it holds none the link's own content
    is assigned back and the citation is not inserted. *)
Theorem postProcessMarkdown_sentinel
    (getCitation : jsstring -> bool -> jsstring)
    (reserialize : jsstring -> jsstring)
    (this : CitationPlugin) (lib : Library) (selected : list Element)
    (i : nat) (link : HTMLAnchorElement) (citekey : jsstring) :
  library this = Some lib ->
  selected !! i = Some (Anchor link) ->
  citekey <> [] -> singleLine citekey ->
  pathname link = ch "/" :: ch "@" :: citekey ->
  Get (entries lib) citekey <> Undefined ->
  ((exists a b, getCitation citekey true = a ++ NO_PRINTED_FORM ++ b) ->
   postProcessMarkdown getCitation reserialize this selected !! i
     = Some (Anchor link)) /\
  (~ (exists a b, getCitation citekey true = a ++ NO_PRINTED_FORM ++ b) ->
   exists link',
     postProcessMarkdown getCitation reserialize this selected !! i
       = Some (Anchor link') /\
     pathname link' = pathname link /\
     js "citation-link" ∈ classList link' /\
     (forall before after,
        firstOccurrence (ch "@" :: citekey) (innerHTML link) before after ->
        noDollar (getCitation citekey true) ->
        innerHTML link' =
          reserialize (before ++ getCitation citekey true ++ after)) /\
     ((forall a b, innerHTML link <> a ++ (ch "@" :: citekey) ++ b) ->
      innerHTML link' = reserialize (innerHTML link))).
Proof.
  intros Hlib Hi Hne Hline Hpath Hentry.
  assert (resolves lib link citekey) as Hres by (repeat split; assumption).
  unfold postProcessMarkdown. rewrite Hlib, list_lookup_fmap, Hi.
  cbn [fmap option_fmap option_map].
  rewrite (processLink_resolved _ _ _ _ _ Hres).
  destruct (includes _ NO_PRINTED_FORM) eqn:Hinc.
  - split; [reflexivity|]. intros Hno. exfalso. apply Hno.
    apply includes_spec. exact Hinc.
  - split.
    { intros Hyes. apply includes_spec in Hyes. congruence. }
    intros _. eexists. split; [reflexivity|].
    unfold addClass, setInnerHTML. cbn [pathname innerHTML classList].
    split; [reflexivity|]. split; [|split].
    + destruct (decide (js "citation-link" ∈ classList link)); [assumption|].
      apply elem_of_app. right. apply list_elem_of_singleton. reflexivity.
    + intros before after Hfirst Hplain. unfold replace.
      rewrite (splitFirst_firstOccurrence _ _ _ _ Hfirst).
      rewrite getSubstitution_plain by exact Hplain. reflexivity.
    + intros Habs. unfold replace.
      rewrite (splitFirst_absent _ _ Habs). reflexivity.
Qed.

Lemma sampleLink_resolves :
  js "smith2020" <> [] /\ singleLine (js "smith2020") /\
  Get (entries sampleLibrary) (js "smith2020") <> Undefined.
Proof.
  split; [vm_compute; discriminate|]. split.
  - unfold singleLine. apply (bool_decide_unpack _). vm_compute. exact I.
  - vm_compute. discriminate.
Qed.

Lemma postProcessMarkdown_sentinel_witness :
  postProcessMarkdown (fun _ _ => js "[NO_PRINTED_FORM]") (fun html => html)
    samplePlugin [Anchor sampleLink] !! 0 = Some (Anchor sampleLink) /\
  exists link',
    postProcessMarkdown (fun _ _ => js "(Smith 2020)") (fun html => html)
      samplePlugin [Anchor sampleLink] !! 0 = Some (Anchor link') /\
    innerHTML link' = js "(Smith 2020)" /\
    js "citation-link" ∈ classList link'.
Proof.
  destruct sampleLink_resolves as (Hne & Hline & Hentry). split.
  - apply (proj1 (postProcessMarkdown_sentinel
                    (fun _ _ => js "[NO_PRINTED_FORM]") (fun html => html)
                    samplePlugin sampleLibrary [Anchor sampleLink] 0
                    sampleLink (js "smith2020")
                    eq_refl eq_refl Hne Hline eq_refl Hentry)).
    exists (js "["), (js "]"). reflexivity.
  - destruct (proj2 (postProcessMarkdown_sentinel
                       (fun _ _ => js "(Smith 2020)") (fun html => html)
                       samplePlugin sampleLibrary [Anchor sampleLink] 0
                       sampleLink (js "smith2020")
                       eq_refl eq_refl Hne Hline eq_refl Hentry))
      as (link' & Hresult & _ & Hclass & Hfirst & _).
    { intros Hyes. apply includes_spec in Hyes. vm_compute in Hyes.
      discriminate. }
    exists link'. split; [exact Hresult|]. split; [|exact Hclass].
    rewrite (Hfirst [] []).
    + reflexivity.
    + split; [reflexivity|]. intros a b _. simpl. lia.
    + unfold noDollar. apply (bool_decide_unpack _). vm_compute. exact I.
Defined.

(** C10 (counterexample): for the link to smith2020 shown under the alias
    "Smith's book" the citation "(Smith 2020)" does not contain the
    sentinel, yet it is not inserted: whatever the DOM makes of the markup
    assigned, that markup is the link's own "Smith's book". *)
Lemma printable_citation_not_inserted :
  includes (js "(Smith 2020)") NO_PRINTED_FORM = false /\
  (forall reserialize : jsstring -> jsstring,
     exists link',
       postProcessMarkdown (fun _ _ => js "(Smith 2020)") reserialize
         samplePlugin [Anchor aliasedLink] !! 0 = Some (Anchor link') /\
       innerHTML link' = reserialize (js "Smith's book")) /\
  (exists link',
     postProcessMarkdown (fun _ _ => js "(Smith 2020)") (fun html => html)
       samplePlugin [Anchor aliasedLink] !! 0 = Some (Anchor link') /\
     includes (innerHTML link') (js "(Smith 2020)") = false).
Proof.
  split; [vm_compute; reflexivity|]. split.
  - intros reserialize. eexists. split; reflexivity.
  - eexists. split; [reflexivity|]. vm_compute. reflexivity.
Qed.

(** X16: a citation link shown under its own name, its content starting
    with "@citekey", is assigned the citation in the place of "@citekey"
    followed by the rest of the content, provided the citation is printable
    (no NO_PRINTED_FORM) and holds no "$", which [String.prototype.replace]
    would read as the start of a replacement pattern. The content then is
    what the DOM makes of that markup. *)
Theorem postProcessMarkdown_unaliased_link
    (getCitation : jsstring -> bool -> jsstring)
    (reserialize : jsstring -> jsstring)
    (this : CitationPlugin) (lib : Library) (selected : list Element)
    (i : nat) (link : HTMLAnchorElement) (citekey after : jsstring) :
  library this = Some lib ->
  selected !! i = Some (Anchor link) ->
  citesEntry lib link citekey ->
  innerHTML link = ch "@" :: citekey ++ after ->
  includes (getCitation citekey true) NO_PRINTED_FORM = false ->
  noDollar (getCitation citekey true) ->
  exists link',
    postProcessMarkdown getCitation reserialize this selected !! i
      = Some (Anchor link') /\
    innerHTML link' = reserialize (getCitation citekey true ++ after).
Proof.
  intros Hlib Hi Hcites Hhtml Hinc Hplain. unfold postProcessMarkdown.
  rewrite Hlib, list_lookup_fmap, Hi. cbn [fmap option_fmap option_map].
  rewrite (processLink_resolved _ _ _ _ _ (citesEntry_resolves _ _ _ Hcites)).
  rewrite Hinc.
  eexists. split; [reflexivity|]. cbn [addClass setInnerHTML innerHTML].
  unfold replace. rewrite Hhtml.
  change (ch "@" :: citekey ++ after) with ((ch "@" :: citekey) ++ after).
  rewrite splitFirst_prefix, getSubstitution_plain by exact Hplain.
  reflexivity.
Qed.

Lemma postProcessMarkdown_unaliased_link_witness :
  exists link',
    postProcessMarkdown (fun _ _ => js "(Smith 2020)") (fun html => html)
      samplePlugin [Anchor noteLink; Anchor sampleLink] !! 1
      = Some (Anchor link') /\
    innerHTML link' = js "(Smith 2020)" ++ [].
Proof.
  apply (postProcessMarkdown_unaliased_link
           (fun _ _ => js "(Smith 2020)") (fun html => html)
           samplePlugin sampleLibrary
           [Anchor noteLink; Anchor sampleLink] 1 sampleLink
           (js "smith2020") []).
  - reflexivity.
  - reflexivity.
  - apply sampleLink_citesEntry. reflexivity.
  - reflexivity.
  - vm_compute. reflexivity.
  - unfold noDollar. apply (bool_decide_unpack _). vm_compute. exact I.
Defined.

(** X17: a citation link whose content does not hold "@citekey" (a link
    shown under an alias) is assigned its own content back, so it shows what
    it showed wherever the DOM reads its own serialisation back as it is;
    yet it is still marked with the class citation-link when the citation is
    printable. *)
Theorem postProcessMarkdown_aliased_link
    (getCitation : jsstring -> bool -> jsstring)
    (reserialize : jsstring -> jsstring)
    (this : CitationPlugin) (lib : Library) (selected : list Element)
    (i : nat) (link : HTMLAnchorElement) (citekey : jsstring) :
  library this = Some lib ->
  selected !! i = Some (Anchor link) ->
  citesEntry lib link citekey ->
  (forall a b, innerHTML link <> a ++ (ch "@" :: citekey) ++ b) ->
  includes (getCitation citekey true) NO_PRINTED_FORM = false ->
  exists link',
    postProcessMarkdown getCitation reserialize this selected !! i
      = Some (Anchor link') /\
    innerHTML link' = reserialize (innerHTML link) /\
    (reserialize (innerHTML link) = innerHTML link ->
     innerHTML link' = innerHTML link) /\
    js "citation-link" ∈ classList link'.
Proof.
  intros Hlib Hi Hcites Habs Hinc. unfold postProcessMarkdown.
  rewrite Hlib, list_lookup_fmap, Hi. cbn [fmap option_fmap option_map].
  rewrite (processLink_resolved _ _ _ _ _ (citesEntry_resolves _ _ _ Hcites)).
  rewrite Hinc.
  eexists. split; [reflexivity|]. unfold addClass, setInnerHTML.
  cbn [innerHTML classList]. unfold replace.
  rewrite (splitFirst_absent _ _ Habs). split; [reflexivity|].
  split; [auto|].
  destruct (decide (js "citation-link" ∈ classList link)); [assumption|].
  apply elem_of_app. right. apply list_elem_of_singleton. reflexivity.
Qed.

Lemma postProcessMarkdown_aliased_link_witness :
  exists link',
    postProcessMarkdown (fun _ _ => js "(Smith 2020)") (fun html => html)
      samplePlugin [Anchor aliasedLink] !! 0 = Some (Anchor link') /\
    innerHTML link' = innerHTML aliasedLink /\
    (innerHTML aliasedLink = innerHTML aliasedLink ->
     innerHTML link' = innerHTML aliasedLink) /\
    js "citation-link" ∈ classList link'.
Proof.
  apply (postProcessMarkdown_aliased_link
           (fun _ _ => js "(Smith 2020)") (fun html => html)
           samplePlugin sampleLibrary
           [Anchor aliasedLink] 0 aliasedLink (js "smith2020")).
  - reflexivity.
  - reflexivity.
  - apply sampleLink_citesEntry. reflexivity.
  - apply splitFirst_None. vm_compute. reflexivity.
  - vm_compute. reflexivity.
Defined.

(** ** Settings *)

Lemma copySettings_lookup {V : Type} (loaded : gmap jsstring V)
    (names : list jsstring) :
  forall (settings : gmap jsstring V) (k : jsstring),
    fold_left (copySetting loaded) names settings !! k =
    if decide (k ∈ names) then
      match loaded !! k with
      | Some v => Some v
      | None => settings !! k
      end
    else settings !! k.
Proof.
  induction names as [|n names IH]; intros settings k; cbn [fold_left].
  - destruct (decide (k ∈ [])) as [Hin|_]; [|reflexivity].
    exfalso. exact (not_elem_of_nil k Hin).
  - rewrite IH.
    assert (copySetting loaded settings n !! k =
            if decide (n = k) then
              match loaded !! k with
              | Some v => Some v
              | None => settings !! k
              end
            else settings !! k) as Hcopy.
    { unfold copySetting. destruct (decide (n = k)) as [->|Hne].
      - destruct (loaded !! k); [apply lookup_insert_eq|reflexivity].
      - destruct (loaded !! n); [|reflexivity].
        apply lookup_insert_ne. exact Hne. }
    rewrite Hcopy. clear Hcopy IH.
    destruct (decide (k ∈ n :: names)) as [Hin'|Hnin'];
      destruct (decide (k ∈ names)) as [Hin|Hnin];
      destruct (decide (n = k)) as [Heq|Hne];
      try reflexivity; try (destruct (loaded !! k); reflexivity);
      exfalso.
    + apply elem_of_cons in Hin' as [->|Hin']; auto.
    + apply Hnin'. apply elem_of_cons. auto.
    + apply Hnin'. apply elem_of_cons. auto.
    + apply Hnin'. apply elem_of_cons. auto.
Qed.

(** X18: after [loadSettings] each of the seven settings the function
    names holds the saved value when the saved data has that property and
    the default otherwise; any other property of the saved data is ignored
    and the settings object keeps its default there. *)
Theorem loadSettings_lookup {V : Type} (defaults loaded : gmap jsstring V)
    (k : jsstring) :
  loadSettings defaults (Some loaded) !! k =
  if decide (k ∈ toLoad) then
    match loaded !! k with
    | Some v => Some v
    | None => defaults !! k
    end
  else defaults !! k.
Proof. apply copySettings_lookup. Qed.

(** X19: saving the settings [loadSettings] produced and loading them
    again gives the same settings, whatever the saved data was. *)
Theorem loadSettings_reload {V : Type} (defaults : gmap jsstring V)
    (loadedSettings : option (gmap jsstring V)) :
  loadSettings defaults (Some (loadSettings defaults loadedSettings)) =
  loadSettings defaults loadedSettings.
Proof.
  apply map_eq. intros k. unfold loadSettings at 1.
  rewrite copySettings_lookup.
  destruct (decide (k ∈ toLoad)) as [Hin|Hnin].
  - destruct (loadSettings defaults loadedSettings !! k) eqn:Hk;
      [reflexivity|].
    destruct loadedSettings as [loaded|]; [|exact Hk].
    unfold loadSettings in Hk. rewrite copySettings_lookup in Hk.
    rewrite decide_True in Hk by exact Hin.
    destruct (loaded !! k); [discriminate|exact Hk].
  - destruct loadedSettings as [loaded|]; [|reflexivity].
    unfold loadSettings. rewrite copySettings_lookup.
    rewrite decide_False by exact Hnin. reflexivity.
Qed.
